(** * Declarative Compute: the execution-strategy dispatcher

    A shallow embedding of [include/declarative_compute.hpp]: the three
    processors ([process_sequential], [process_parallel],
    [process_adaptive]), the dispatcher [process], and the chunking loop of
    the parallel processor, with the properties the specification states
    about them.

    Modelling conventions.
    - A [std::vector] is a [list]; [size_t] values are [nat].  Every
      [size_t] the processors compute is bounded by twice the input length
      (lemma [partition_arith_fits_size_t]), so no operation wraps.
    - The user's transformation is a function into [outcome]: it returns a
      value or throws.  The processors catch [const std::exception&] only,
      so an exception is either a [StdException] carrying [what()] or
      [Foreign] (any other thrown object).
    - A call ends in a [call]: it returns its record, lets an exception
      propagate to the caller, or has undefined behaviour (unsigned
      division by zero).  [Diverged] is a loop of the model out of fuel;
      no call ends that way (lemma [process_never_diverges]).
    - [execution_time_ms] is read from the wall clock and is left out of
      [ProcessResult].  Failure to create a thread or to allocate is not
      modelled.
    - The threads started by [std::async] are interleaved by a schedule, a
      list saying which task takes the next step; the processors that can
      reach [process_parallel] take the schedule as an argument, and
      [process_adaptive] takes the value of
      [std::thread::hardware_concurrency()].

    The second half of the file covers the rest of the header: the memory
    pool ([MemoryPool]), the thread pool as a machine of workers
    ([WorkerPool]), and [benchmark]. *)

From stdpp Require Import base list strings.
From Stdlib Require Import ZArith Floats.

Local Open Scope nat_scope.

(** ** Section 1: policies *)

Module MemoryPolicy.
Inductive t := Standard | Pooled | Preallocated | ZeroCopy.
End MemoryPolicy.

Module ConcurrencyPolicy.
Inductive t := Sequential | Parallel | Adaptive | ThreadPool.
End ConcurrencyPolicy.

Module SafetyPolicy.
Inductive t := Minimal | Standard | Guaranteed | ThreadSafe.
End SafetyPolicy.

Record ProcessConfig := {
  memory : MemoryPolicy.t;
  concurrency : ConcurrencyPolicy.t;
  safety : SafetyPolicy.t;
  max_threads : nat;
  chunk_size : nat;
  enable_logging : bool
}.

(** [ProcessConfig{}]: the default member initialisers, with [cores] the
    value [std::thread::hardware_concurrency()] returns. *)
Definition default_config (cores : nat) : ProcessConfig :=
  {| memory := MemoryPolicy.Standard;
     concurrency := ConcurrencyPolicy.Adaptive;
     safety := SafetyPolicy.Standard;
     max_threads := cores;
     chunk_size := 1000;
     enable_logging := false |}.

(** ** Section 3: results and outcomes *)

Record ProcessResult (T : Type) := {
  results : list T;
  items_processed : nat;
  threads_used : nat;
  memory_allocated : nat;
  success : bool;
  error_message : string
}.
Arguments results {T} _.
Arguments items_processed {T} _.
Arguments threads_used {T} _.
Arguments memory_allocated {T} _.
Arguments success {T} _.
Arguments error_message {T} _.

Inductive exception :=
  | StdException (what : string)
  | Foreign.

Inductive outcome (T : Type) :=
  | Returns (v : T)
  | Throws (e : exception).
Arguments Returns {T} v.
Arguments Throws {T} e.

Inductive call (R : Type) :=
  | Returned (r : R)
  | Propagated (e : exception)
  | Undefined
  | Diverged.
Arguments Returned {R} r.
Arguments Propagated {R} e.
Arguments Undefined {R}.
Arguments Diverged {R}.

(** A run of a processor: how the call ended, and the indices of the input
    elements the transformation was invoked on, in invocation order. *)
Definition run (T : Type) : Type := call (ProcessResult T) * list nat.

(** ** The chunking loop of [process_parallel]

    [for (size_t i = 0; i < input.size(); i += chunk_size)] with
    [end = std::min(i + chunk_size, input.size())]: one half-open range
    [(i, end)] per iteration.  The loop runs on fuel; [None] is a loop
    still running when the fuel is spent. *)
Fixpoint partition_loop (fuel i n chunk : nat) : option (list (nat * nat)) :=
  match fuel with
  | O => None
  | S fuel' =>
      if i <? n then
        cons (i, Nat.min (i + chunk) n) <$> partition_loop fuel' (i + chunk) n chunk
      else Some []
  end.

(** [result.threads_used = std::min(config.max_threads, input.size())]. *)
Definition worker_count (config : ProcessConfig) (n : nat) : nat :=
  Nat.min (max_threads config) n.

(** [std::max(size_t(1), input.size() / result.threads_used)]; the
    division is undefined for a zero divisor. *)
Definition chunk_size_of (n threads : nat) : option nat :=
  if threads =? 0 then None else Some (Nat.max 1 (n / threads)).

(** The ranges the loop of [process_parallel] hands to [std::async] for an
    input of length [n] and a pool of [threads] workers. *)
Definition partitions (n threads : nat) : call (list (nat * nat)) :=
  match chunk_size_of n threads with
  | None => Undefined
  | Some chunk =>
      match partition_loop (S n) 0 n chunk with
      | Some parts => Returned parts
      | None => Diverged
      end
  end.

(** ** The worker pool

    [ThreadPool pool(n)] starts [n] workers on an empty queue.
    [process_parallel] constructs its pool and never calls [enqueue] on
    it: the chunks run on threads of [std::async].  The record keeps the
    number of workers and of queued tasks, not the threads and closures
    themselves. *)
Record ThreadPool := {
  workers_ : nat;
  tasks_ : nat;
  stop_ : bool;
  active_tasks_ : nat
}.

Definition ThreadPool_new (num_threads : nat) : ThreadPool :=
  {| workers_ := num_threads; tasks_ := 0; stop_ := false; active_tasks_ := 0 |}.

Definition worker_count_of (pool : ThreadPool) : nat := workers_ pool.

Section Processors.
Context {InputT OutputT : Type}.
(** The value a [resize] puts in a new slot, [OutputT()]. *)
Variable value_init : OutputT.
Variable func : InputT → outcome OutputT.

(** *** process_sequential *)

(** The range-for inside the [try]: [rest] is what is left of the input,
    [j] the index of its head, [out] the vector [result.results]. *)
Fixpoint sequential_loop (rest : list InputT) (j : nat)
    (out : list OutputT) (calls : list nat)
    : list OutputT * list nat * option exception :=
  match rest with
  | [] => (out, calls, None)
  | item :: rest' =>
      match func item with
      | Returns v => sequential_loop rest' (S j) (out ++ [v]) (calls ++ [j])
      | Throws e => (out, calls ++ [j], Some e)
      end
  end.

Definition process_sequential (input : list InputT)
    (config : ProcessConfig) : run OutputT :=
  match sequential_loop input 0 [] [] with
  | (out, calls, None) =>
      (Returned {| results := out;
                   items_processed := length input;
                   threads_used := 1;
                   memory_allocated := 0;
                   success := true;
                   error_message := ""%string |}, calls)
  | (out, calls, Some (StdException what)) =>
      (Returned {| results := out;
                   items_processed := 0;
                   threads_used := 1;
                   memory_allocated := 0;
                   success := false;
                   error_message := what |}, calls)
  | (out, calls, Some Foreign) => (Propagated Foreign, calls)
  end.

(** *** process_parallel *)

(** One [std::async] task: the loop [for (j = i; j < end; ++j)] at
    position [cursor], and the exception its future holds once the
    transformation has thrown. *)
Record task := {
  cursor : nat;
  bound : nat;
  stored : option exception
}.

(** What the tasks share: the vector [result.results], and the log of
    invocations. *)
Record shared := {
  slots : list OutputT;
  log : list nat
}.

Definition launch (range : nat * nat) : task :=
  {| cursor := range.1; bound := range.2; stored := None |}.

Definition finished (t : task) : bool :=
  match stored t with
  | Some _ => true
  | None => negb (cursor t <? bound t)
  end.

Section Tasks.
Variable input : list InputT.

(** One iteration of a task: [result.results[j] = func(input[j])].
    A read past the end of [input] does not occur, since every range
    ends at or before [input.size()] (lemma [partition_loop_bounds]);
    the model leaves such a task where it is. *)
Definition task_step (t : task) (s : shared) : task * shared :=
  if finished t then (t, s)
  else
    match input !! cursor t with
    | None => (t, s)
    | Some x =>
        match func x with
        | Returns v =>
            ({| cursor := S (cursor t); bound := bound t; stored := None |},
             {| slots := <[cursor t := v]> (slots s);
                log := log s ++ [cursor t] |})
        | Throws e =>
            ({| cursor := cursor t; bound := bound t; stored := Some e |},
             {| slots := slots s; log := log s ++ [cursor t] |})
        end
    end.

(** The scheduler lets task [k] take one step. *)
Definition step_at (k : nat) (ts : list task) (s : shared)
    : list task * shared :=
  match ts !! k with
  | Some t => let '(t', s') := task_step t s in (<[k := t']> ts, s')
  | None => (ts, s)
  end.

Fixpoint interleave (sched : list nat) (ts : list task) (s : shared)
    : list task * shared :=
  match sched with
  | [] => (ts, s)
  | k :: sched' =>
      let '(ts', s') := step_at k ts s in interleave sched' ts' s'
  end.

(** [future.wait()]: the task runs until it has finished.  It returns
    without rethrowing what the future holds. *)
Fixpoint run_to_completion (fuel : nat) (t : task) (s : shared)
    : task * shared :=
  match fuel with
  | O => (t, s)
  | S fuel' =>
      let '(t', s') := task_step t s in run_to_completion fuel' t' s'
  end.

(** [for (auto& future : futures) future.wait();] *)
Fixpoint wait_all (ts : list task) (s : shared) : list task * shared :=
  match ts with
  | [] => ([], s)
  | t :: ts' =>
      let '(t', s') := run_to_completion (bound t - cursor t) t s in
      let '(ts'', s'') := wait_all ts' s' in
      (t' :: ts'', s'')
  end.

(** The tasks of one parallel call under schedule [sched], from launch
    to the end of the waiting loop. *)
Definition execute (sched : list nat) (parts : list (nat * nat))
    : list task * shared :=
  let s0 := {| slots := replicate (length input) value_init; log := [] |} in
  let '(ts, s1) := interleave sched (launch <$> parts) s0 in
  wait_all ts s1.
End Tasks.

(** The body of the [try] block never throws in this model (a task's
    exception stays in its future), so the handler that would set
    [success = false] is not reached. *)
Definition process_parallel (sched : list nat) (input : list InputT)
    (config : ProcessConfig) : run OutputT :=
  let n := length input in
  let threads := worker_count config n in
  let pool := ThreadPool_new threads in
  match partitions n threads with
  | Returned parts =>
      let '(_, s) := execute input sched parts in
      (Returned {| results := slots s;
                   items_processed := n;
                   threads_used := threads;
                   memory_allocated := 0;
                   success := true;
                   error_message := ""%string |}, log s)
  | Propagated e => (Propagated e, [])
  | Undefined => (Undefined, [])
  | Diverged => (Diverged, [])
  end.

(** The futures of a parallel call after the waiting loop. *)
Definition parallel_futures (sched : list nat) (input : list InputT)
    (config : ProcessConfig) : list task :=
  match partitions (length input) (worker_count config (length input)) with
  | Returned parts => (execute input sched parts).1
  | _ => []
  end.

(** *** process_adaptive *)

Definition PARALLEL_THRESHOLD : nat := 1000.

Definition process_adaptive (cores : nat) (sched : list nat)
    (input : list InputT) (config : ProcessConfig) : run OutputT :=
  if length input <? PARALLEL_THRESHOLD then
    process_sequential input config
  else if (PARALLEL_THRESHOLD <=? length input) && (1 <? cores) then
    process_parallel sched input config
  else
    process_sequential input config.

(** *** process *)

Definition process (cores : nat) (sched : list nat)
    (input : list InputT) (config : ProcessConfig) : run OutputT :=
  match concurrency config with
  | ConcurrencyPolicy.Sequential => process_sequential input config
  | ConcurrencyPolicy.Parallel
  | ConcurrencyPolicy.ThreadPool => process_parallel sched input config
  | ConcurrencyPolicy.Adaptive => process_adaptive cores sched input config
  end.

(** The two-argument overload: [ProcessConfig{}]. *)
Definition process_default (cores : nat) (sched : list nat)
    (input : list InputT) : run OutputT :=
  process cores sched input (default_config cores).

End Processors.

(** The indices the tasks launched on [parts] iterate over, task after
    task. *)
Definition indices (parts : list (nat * nat)) : list nat :=
  concat ((λ r, seq r.1 (r.2 - r.1)) <$> parts).

(** How many ranges of [parts] contain index [i]. *)
Definition owners (parts : list (nat * nat)) (i : nat) : nat :=
  length (filter (λ r, r.1 ≤ i < r.2) parts).

(** ** The transformations of the usage examples *)

(** Example 1: [[](int x) { return x * x; }].  On the inputs used here the
    product stays below [2^31], so [int] arithmetic is exact. *)
Definition square (x : Z) : outcome Z := Returns (x * x)%Z.

(** [std::iota(first, last, 1)] over a vector of [n] ints. *)
Definition iota1 (n : nat) : list Z := (λ i, Z.of_nat (S i)) <$> seq 0 n.

(** Example 1 runs on [1, 2, ..., 10000]. *)
Definition example1_size : nat := Z.to_nat 10000.
Definition example1_data : list Z := iota1 example1_size.

(** Conversion of an [int] to [double]; exact on the whole [int] range. *)
Definition double_of_int (x : Z) : float :=
  if (x <? 0)%Z then (- PrimFloat.of_uint63 (Uint63.of_Z (- x)))%float
  else PrimFloat.of_uint63 (Uint63.of_Z x).

(** Example 7: throws [std::runtime_error("Division by zero")] on zero and
    returns [100.0 / x] otherwise. *)
Definition div100 (x : Z) : outcome float :=
  if (x =? 0)%Z then Throws (StdException "Division by zero")
  else Returns (100 / double_of_int x)%float.

Definition example7_data : list Z := [1; 2; 3; 4; 5; 0; 7; 8]%Z.

(** A configuration that differs from the default in its policy and its
    thread limit only. *)
Definition config_with (policy : ConcurrencyPolicy.t) (limit : nat)
    : ProcessConfig :=
  {| memory := MemoryPolicy.Standard;
     concurrency := policy;
     safety := SafetyPolicy.Standard;
     max_threads := limit;
     chunk_size := 1000;
     enable_logging := false |}.

(** ** Vocabulary of the statements *)

(** The transformation returns on every element of [input], with values
    [outs]. *)
Definition succeeds_on {InputT OutputT : Type}
    (func : InputT → outcome OutputT)
    (input : list InputT) (outs : list OutputT) : Prop :=
  Forall2 (λ x v, func x = Returns v) input outs.

(** Index [i] is still to be processed by one of the tasks [ts]. *)
Definition todo (ts : list task) (i : nat) : Prop :=
  ∃ t, t ∈ ts ∧ cursor t ≤ i < bound t.

(** The indices the tasks [ts] have yet to process. *)
Definition remaining (ts : list task) : list nat :=
  concat ((λ t, seq (cursor t) (bound t - cursor t)) <$> ts).

(** The invariant of a parallel call whose transformation does not throw:
    the output vector keeps its length, no future holds an exception, no
    task reaches past the input, every slot no task has ahead of it holds
    its final value, and the invocations made so far together with those
    still to come are the indices of the input, each once. *)
Definition parallel_inv {InputT OutputT : Type}
    (input : list InputT) (outs : list OutputT)
    (ts : list task) (s : shared (OutputT := OutputT)) : Prop :=
  length (slots s) = length input ∧
  Forall (λ t, stored t = None ∧ bound t ≤ length input) ts ∧
  (∀ i, i < length input → ¬ todo ts i → slots s !! i = outs !! i) ∧
  log s ++ remaining ts ≡ₚ seq 0 (length input).

(** * More of the library

    The parts of the header the processors do not need: what a parallel
    call leaves behind when the transformation throws, the memory pool,
    the thread pool worker by worker, and the benchmark helper. *)





(** ** Section 2: the memory pool

    [MemoryPool<T>] hands out slots of blocks it allocates.  A slot
    [raw + i] of the block at index [b] of [pools_] is the pair [(b, i)];
    a block is kept as its number of slots.  Every operation runs under
    the pool's mutex, so operations do not interleave. *)
Module MemoryPool.

Definition ptr : Type := nat * nat.

Record t := {
  pools_ : list nat;
  available_ : list ptr;
  block_size_ : nat;
  total_allocated_ : nat
}.

Definition allocate_block (p : t) : t :=
  {| pools_ := pools_ p ++ [block_size_ p];
     available_ :=
       available_ p ++ ((λ i, (length (pools_ p), i)) <$> seq 0 (block_size_ p));
     block_size_ := block_size_ p;
     total_allocated_ := total_allocated_ p + block_size_ p |}.

(** [MemoryPool(block_size)]; the default argument is 1024. *)
Definition new (block_size : nat) : t :=
  allocate_block {| pools_ := []; available_ := []; block_size_ := block_size;
                    total_allocated_ := 0 |}.

(** [available_.back()] on an empty vector is undefined. *)
Definition acquire (p : t) : call (ptr * t) :=
  let p' := match available_ p with [] => allocate_block p | _ => p end in
  match last (available_ p') with
  | None => Undefined
  | Some q =>
      Returned (q, {| pools_ := pools_ p';
                      available_ := removelast (available_ p');
                      block_size_ := block_size_ p';
                      total_allocated_ := total_allocated_ p' |})
  end.

Definition release (q : ptr) (p : t) : t :=
  {| pools_ := pools_ p;
     available_ := available_ p ++ [q];
     block_size_ := block_size_ p;
     total_allocated_ := total_allocated_ p |}.

Definition total_allocated (p : t) : nat := total_allocated_ p.
Definition available_count (p : t) : nat := length (available_ p).

(** The slots of [blocks] blocks of [size] slots each. *)
Definition slots_of (blocks size : nat) : list ptr :=
  b ← seq 0 blocks; (λ i, (b, i)) <$> seq 0 size.

(** A client of the pool: it acquires a slot, or gives back the [k]-th of
    the slots it holds (and does nothing if it holds fewer). *)
Inductive op := Acquire | Release (k : nat).

Fixpoint client (ops : list op) (p : t) (held : list ptr)
    : call (t * list ptr) :=
  match ops with
  | [] => Returned (p, held)
  | Acquire :: ops' =>
      match acquire p with
      | Returned (q, p') => client ops' p' (q :: held)
      | Propagated e => Propagated e
      | Undefined => Undefined
      | Diverged => Diverged
      end
  | Release k :: ops' =>
      match held !! k with
      | Some q => client ops' (release q p) (delete k held)
      | None => client ops' p held
      end
  end.

End MemoryPool.

(** A pool a disciplined client can be in: its blocks all have
    [block_size_] slots, [total_allocated_] counts them, and every slot is
    either available or held, and only once. *)
Definition pool_inv (p : MemoryPool.t) (held : list MemoryPool.ptr) : Prop :=
  Forall (λ b, b = MemoryPool.block_size_ p) (MemoryPool.pools_ p) ∧
  MemoryPool.total_allocated_ p
    = MemoryPool.block_size_ p * length (MemoryPool.pools_ p) ∧
  MemoryPool.available_ p ++ held
    ≡ₚ MemoryPool.slots_of (length (MemoryPool.pools_ p))
         (MemoryPool.block_size_ p).

(** ** Section 2, continued: the thread pool, worker by worker

    The pool's mutex makes each locked section of a worker atomic, so a
    worker is at one of four points: [Waiting] at the condition variable,
    [Running] a task it has taken (between the two locked sections),
    [Ran] (the task has returned, [active_tasks_--] is still to come), or
    [Exited].  A schedule says which worker moves next; a worker whose
    wait condition is false stays where it is.  Tasks are numbers;
    [throws task] says that calling the task throws, which ends the
    program ([std::terminate], here [terminated]).  [completed] is the
    history of the tasks that have returned. *)
Module WorkerPool.

Inductive worker :=
  | Waiting
  | Running (task : nat)
  | Ran
  | Exited.

Record t := {
  workers_ : list worker;
  tasks_ : list nat;
  stop_ : bool;
  active_tasks_ : nat;
  completed : list nat;
  terminated : bool
}.

(** [ThreadPool(num_threads)]. *)
Definition new (num_threads : nat) : t :=
  {| workers_ := replicate num_threads Waiting;
     tasks_ := [];
     stop_ := false;
     active_tasks_ := 0;
     completed := [];
     terminated := false |}.

Definition worker_count (p : t) : nat := length (workers_ p).

(** [enqueue(task)]. *)
Definition enqueue (task : nat) (p : t) : t :=
  {| workers_ := workers_ p;
     tasks_ := tasks_ p ++ [task];
     stop_ := stop_ p;
     active_tasks_ := active_tasks_ p;
     completed := completed p;
     terminated := terminated p |}.

(** One move of worker [w] in the loop of its thread.  In a reachable
    pool [active_tasks_] counts the workers at [Running] or [Ran] (lemma
    [worker_pool_inv_run]), so the decrement never wraps. *)
Definition worker_step (throws : nat → bool) (w : nat) (p : t) : t :=
  if terminated p then p
  else
    match workers_ p !! w with
    | Some Waiting =>
        match last (tasks_ p) with
        | Some task =>
            {| workers_ := <[w := Running task]> (workers_ p);
               tasks_ := removelast (tasks_ p);
               stop_ := stop_ p;
               active_tasks_ := S (active_tasks_ p);
               completed := completed p;
               terminated := false |}
        | None =>
            if stop_ p then
              {| workers_ := <[w := Exited]> (workers_ p);
                 tasks_ := tasks_ p;
                 stop_ := stop_ p;
                 active_tasks_ := active_tasks_ p;
                 completed := completed p;
                 terminated := false |}
            else p
        end
    | Some (Running task) =>
        if throws task then
          {| workers_ := workers_ p;
             tasks_ := tasks_ p;
             stop_ := stop_ p;
             active_tasks_ := active_tasks_ p;
             completed := completed p;
             terminated := true |}
        else
          {| workers_ := <[w := Ran]> (workers_ p);
             tasks_ := tasks_ p;
             stop_ := stop_ p;
             active_tasks_ := active_tasks_ p;
             completed := completed p ++ [task];
             terminated := false |}
    | Some Ran =>
        {| workers_ := <[w := Waiting]> (workers_ p);
           tasks_ := tasks_ p;
           stop_ := stop_ p;
           active_tasks_ := active_tasks_ p - 1;
           completed := completed p;
           terminated := false |}
    | Some Exited | None => p
    end.

(** What the owner of the pool and the scheduler do, in order. *)
Inductive event := Enqueue (task : nat) | Step (w : nat).

Definition apply_event (throws : nat → bool) (p : t) (e : event) : t :=
  match e with
  | Enqueue task => enqueue task p
  | Step w => worker_step throws w p
  end.

Definition run (throws : nat → bool) (events : list event) (p : t) : t :=
  foldl (apply_event throws) p events.

(** The test of [wait_all]: [tasks_.empty() && active_tasks_ == 0]. *)
Definition idle (p : t) : bool :=
  match tasks_ p with [] => active_tasks_ p =? 0 | _ => false end.

(** [wait_all()]: polls the test while the workers move; [None] is a
    caller still polling when the schedule ends.  The caller looks after
    every move: a reachable pool that is idle stays as it is until
    something is enqueued, so a caller that looks less often returns with
    the same pool. *)
Fixpoint wait_all (throws : nat → bool) (sched : list nat) (p : t) : option t :=
  if idle p then Some p
  else
    match sched with
    | [] => None
    | w :: sched' => wait_all throws sched' (worker_step throws w p)
    end.

(** [worker.join()]: worker [w] moves until its thread function has
    returned; three moves per task still queued, and three more, are
    enough (lemma [join_exits]). *)
Definition join (throws : nat → bool) (w : nat) (p : t) : t :=
  Nat.iter (3 * length (tasks_ p) + 3) (worker_step throws w) p.

(** [~ThreadPool()]: raise [stop_], wake everybody, join the workers in
    order; [sched] is what the workers do before the joins complete. *)
Definition destroy (throws : nat → bool) (sched : list nat) (p : t) : t :=
  let stopped :=
    {| workers_ := workers_ p;
       tasks_ := tasks_ p;
       stop_ := true;
       active_tasks_ := active_tasks_ p;
       completed := completed p;
       terminated := terminated p |} in
  foldl (λ q w, join throws w q)
    (run throws (Step <$> sched) stopped) (seq 0 (length (workers_ p))).

(** The tasks the workers are in the middle of. *)
Definition running (p : t) : list nat :=
  omap (λ s, match s with Running task => Some task | _ => None end)
    (workers_ p).

(** The workers counted by [active_tasks_]. *)
Definition busy (s : worker) : bool :=
  match s with Running _ | Ran => true | _ => false end.

Definition enqueued (events : list event) : list nat :=
  omap (λ e, match e with Enqueue task => Some task | _ => None end) events.

End WorkerPool.

(** What every reachable state of a pool satisfies, [enq] being the tasks
    enqueued so far: each of them is queued, being run, or completed, and
    only once; [active_tasks_] counts the workers that hold a task; and
    no worker exits before [stop_] is raised. *)
Definition worker_pool_inv (enq : list nat) (p : WorkerPool.t) : Prop :=
  WorkerPool.tasks_ p ++ WorkerPool.running p ++ WorkerPool.completed p ≡ₚ enq ∧
  WorkerPool.active_tasks_ p
    = length (filter (λ s, WorkerPool.busy s = true) (WorkerPool.workers_ p)) ∧
  (WorkerPool.stop_ p = false →
   Forall (λ s, s ≠ WorkerPool.Exited) (WorkerPool.workers_ p)).

(** What holds besides as long as no task throws: the program has not
    been terminated, no task still to finish throws, and once a worker has
    exited the queue is empty. *)
Definition calm_inv (throws : nat → bool) (p : WorkerPool.t) : Prop :=
  WorkerPool.terminated p = false ∧
  Forall (λ task, throws task = false)
    (WorkerPool.tasks_ p ++ WorkerPool.running p) ∧
  (WorkerPool.Exited ∈ WorkerPool.workers_ p → WorkerPool.tasks_ p = []).

(** The moves worker [w] needs to reach the end of its thread function
    once [stop_] is raised. *)
Definition moves_left (p : WorkerPool.t) (w : nat) : nat :=
  match WorkerPool.workers_ p !! w with
  | Some WorkerPool.Waiting => 3 * length (WorkerPool.tasks_ p) + 1
  | Some (WorkerPool.Running _) => 3 * length (WorkerPool.tasks_ p) + 3
  | Some WorkerPool.Ran => 3 * length (WorkerPool.tasks_ p) + 2
  | Some WorkerPool.Exited | None => 0
  end.

(** ** Section 5: the benchmark helper

    [benchmark] runs each processor [iterations] times and averages the
    [execution_time_ms] of the records.  Those times come from the clock:
    here [elapsed phase i] is the time measured for run [i] of a phase,
    and [scheds phase i] the schedule of the parallel call that run makes,
    if it makes one. *)
Inductive phase := SequentialRuns | ParallelRuns | AdaptiveRuns.

Record BenchmarkResult := {
  sequential_ms : float;
  parallel_ms : float;
  adaptive_ms : float;
  speedup_parallel : float;
  speedup_adaptive : float;
  optimal_threads : nat
}.

(** Conversion of a [size_t] to [double] (exact below [2^53]). *)
Definition double_of_size (n : nat) : float :=
  PrimFloat.of_uint63 (Uint63.of_Z (Z.of_nat n)).

(** One of the three loops [for (size_t i = 0; i < iterations; ++i)]:
    [total] accumulates the times, [threads] is [threads_used] of the last
    record (which the parallel loop stores in [optimal_threads]). *)
Fixpoint timed_loop {T : Type} (run_at : nat → call (ProcessResult T))
    (time_at : nat → float) (i count : nat) (total : float) (threads : nat)
    : call (float * nat) :=
  match count with
  | O => Returned (total, threads)
  | S count' =>
      match run_at i with
      | Returned r =>
          timed_loop run_at time_at (S i) count' (total + time_at i)%float
            (threads_used r)
      | Propagated e => Propagated e
      | Undefined => Undefined
      | Diverged => Diverged
      end
  end.

Definition benchmark {InputT OutputT : Type} (value_init : OutputT)
    (func : InputT → outcome OutputT) (cores : nat)
    (scheds : phase → nat → list nat) (elapsed : phase → nat → float)
    (input : list InputT) (iterations : nat) : call BenchmarkResult :=
  match timed_loop
          (λ i, (process_sequential func input (default_config cores)).1)
          (elapsed SequentialRuns) 0 iterations 0%float 0 with
  | Returned (seq_total, _) =>
    match timed_loop
            (λ i, (process_parallel value_init func (scheds ParallelRuns i)
                     input (config_with ConcurrencyPolicy.Parallel cores)).1)
            (elapsed ParallelRuns) 0 iterations 0%float 0 with
    | Returned (par_total, threads) =>
      match timed_loop
              (λ i, (process_adaptive value_init func cores
                       (scheds AdaptiveRuns i) input (default_config cores)).1)
              (elapsed AdaptiveRuns) 0 iterations 0%float 0 with
      | Returned (ad_total, _) =>
          let seq_ms := (seq_total / double_of_size iterations)%float in
          let par_ms := (par_total / double_of_size iterations)%float in
          let ad_ms := (ad_total / double_of_size iterations)%float in
          Returned {| sequential_ms := seq_ms;
                      parallel_ms := par_ms;
                      adaptive_ms := ad_ms;
                      speedup_parallel := (seq_ms / par_ms)%float;
                      speedup_adaptive := (seq_ms / ad_ms)%float;
                      optimal_threads := threads |}
      | Propagated e => Propagated e
      | Undefined => Undefined
      | Diverged => Diverged
      end
    | Propagated e => Propagated e
    | Undefined => Undefined
    | Diverged => Diverged
    end
  | Propagated e => Propagated e
  | Undefined => Undefined
  | Diverged => Diverged
  end.

(** * Properties *)

(** ** The chunking loop *)

Lemma indices_cons r parts :
  indices (r :: parts) = seq r.1 (r.2 - r.1) ++ indices parts.
Proof. reflexivity. Qed.

Section Partitioner.
Variables n chunk : nat.
Hypothesis chunk_pos : 1 ≤ chunk.

(** With more fuel than indices left, the loop ends, and its [k]-th
    range starts [k] chunks after [i]. *)
Lemma partition_loop_lookup fuel i :
  n - i < fuel →
  ∃ parts, partition_loop fuel i n chunk = Some parts ∧
    ∀ k, parts !! k =
      if decide (i + k * chunk < n)
      then Some (i + k * chunk, Nat.min (i + k * chunk + chunk) n)
      else None.
Proof.
  revert i. induction fuel as [|fuel IH]; intros i Hfuel; [lia|].
  simpl. destruct (Nat.ltb_spec i n) as [Hlt|Hge].
  - destruct (IH (i + chunk)) as (parts & -> & Hparts); [lia|].
    exists ((i, Nat.min (i + chunk) n) :: parts). split; [done|].
    intros [|k]; simpl.
    + rewrite Nat.add_0_r. by rewrite decide_True by lia.
    + rewrite Hparts.
      replace (i + chunk + k * chunk) with (i + (chunk + k * chunk)) by lia.
      done.
  - exists []. split; [done|]. intros k.
    rewrite lookup_nil. by rewrite decide_False by lia.
Qed.

(** The ranges, flattened, are the indices from [i] up to [n]. *)
Lemma partition_loop_indices fuel i parts :
  partition_loop fuel i n chunk = Some parts →
  indices parts = seq i (n - i).
Proof.
  revert i parts. induction fuel as [|fuel IH]; intros i parts; [done|].
  simpl. destruct (Nat.ltb_spec i n) as [Hlt|Hge].
  - destruct (partition_loop fuel (i + chunk) n chunk) as [rest|] eqn:Hrest;
      [|done].
    intros [= <-]. rewrite indices_cons, (IH _ _ Hrest). simpl.
    destruct (Nat.le_gt_cases (i + chunk) n) as [Hin|Hout].
    + rewrite Nat.min_l by lia.
      replace (n - i) with ((i + chunk - i) + (n - (i + chunk))) by lia.
      rewrite seq_app. do 2 f_equal; lia.
    + rewrite Nat.min_r by lia.
      replace (n - (i + chunk)) with 0 by lia.
      simpl. by rewrite app_nil_r.
  - intros [= <-]. replace (n - i) with 0 by lia. done.
Qed.

(** Every range is non-empty and ends at or before [n]. *)
Lemma partition_loop_bounds fuel i parts :
  partition_loop fuel i n chunk = Some parts →
  Forall (λ r, i ≤ r.1 ∧ r.1 < r.2 ∧ r.2 ≤ n) parts.
Proof.
  revert i parts. induction fuel as [|fuel IH]; intros i parts; [done|].
  simpl. destruct (Nat.ltb_spec i n) as [Hlt|Hge].
  - destruct (partition_loop fuel (i + chunk) n chunk) as [rest|] eqn:Hrest;
      [|done].
    intros [= <-]. constructor; [simpl; lia|].
    eapply Forall_impl; [by apply (IH _ _ Hrest)|].
    intros r. simpl. lia.
  - intros [= <-]. constructor.
Qed.
End Partitioner.

Lemma owners_cons r parts i :
  owners (r :: parts) i =
  (if decide (r.1 ≤ i < r.2) then 1 else 0) + owners parts i.
Proof. unfold owners. rewrite filter_cons. by case_decide. Qed.

(** Each index is in one range if it is between the loop's start and the
    input length, and in none otherwise. *)
Lemma partition_loop_owners n chunk fuel i0 parts i :
  1 ≤ chunk →
  partition_loop fuel i0 n chunk = Some parts →
  owners parts i = if decide (i0 ≤ i < n) then 1 else 0.
Proof.
  intros Hchunk. revert i0 parts.
  induction fuel as [|fuel IH]; intros i0 parts; [done|].
  simpl. destruct (Nat.ltb_spec i0 n) as [Hlt|Hge].
  - destruct (partition_loop fuel (i0 + chunk) n chunk) as [rest|] eqn:Hrest;
      [|done].
    intros [= <-]. rewrite owners_cons, (IH _ _ Hrest). simpl.
    repeat case_decide; lia.
  - intros [= <-]. rewrite decide_False by lia. done.
Qed.

(** The chunk size is at least one whenever the division is defined. *)
Lemma chunk_size_of_pos n threads chunk :
  chunk_size_of n threads = Some chunk → 1 ≤ chunk.
Proof.
  unfold chunk_size_of. destruct (threads =? 0); [done|].
  intros [= <-]. lia.
Qed.

Lemma chunk_size_of_defined n threads :
  1 ≤ threads → chunk_size_of n threads = Some (Nat.max 1 (n / threads)).
Proof.
  intros Hthreads. unfold chunk_size_of.
  destruct (Nat.eqb_spec threads 0); [lia|done].
Qed.

(** With at least one worker the chunking loop ends within its fuel. *)
Lemma partitions_returned n threads :
  1 ≤ threads →
  ∃ parts, partitions n threads = Returned parts ∧
    partition_loop (S n) 0 n (Nat.max 1 (n / threads)) = Some parts.
Proof.
  intros Hthreads. unfold partitions.
  rewrite (chunk_size_of_defined _ _ Hthreads).
  destruct (partition_loop_lookup n (Nat.max 1 (n / threads)) ltac:(lia) (S n) 0)
    as (parts & Hloop & _); [lia|].
  rewrite Hloop. eauto.
Qed.

(** Without a worker the chunk size divides by zero. *)
Lemma partitions_no_worker n : partitions n 0 = Undefined.
Proof. reflexivity. Qed.

Lemma partitions_inv n threads parts :
  partitions n threads = Returned parts →
  1 ≤ threads ∧
  partition_loop (S n) 0 n (Nat.max 1 (n / threads)) = Some parts.
Proof.
  unfold partitions, chunk_size_of.
  destruct (Nat.eqb_spec threads 0) as [->|Hne]; [done|].
  destruct (partition_loop _ _ _ _) as [parts'|]; [|done].
  intros [= <-]. split; [lia|done].
Qed.

(** Every [size_t] the chunking loop computes fits in 64 bits when the
    input is no longer than [PTRDIFF_MAX], the most a vector holds. *)
Lemma partition_arith_fits_size_t n threads parts :
  (Z.of_nat n ≤ 2 ^ 63 - 1)%Z →
  partitions n threads = Returned parts →
  Forall (λ r,
    (Z.of_nat (r.1 + Nat.max 1 (n / threads)) ≤ 2 ^ 64 - 1)%Z ∧
    r.2 = Nat.min (r.1 + Nat.max 1 (n / threads)) n) parts.
Proof.
  intros Hn Hparts. apply partitions_inv in Hparts as [Hthreads Hloop].
  assert (Hchunk : Nat.max 1 (n / threads) ≤ Nat.max 1 n).
  { assert (n / threads ≤ n); [|lia].
    apply Nat.Div0.div_le_upper_bound. nia. }
  destruct (partition_loop_lookup n (Nat.max 1 (n / threads)) ltac:(lia)
              (S n) 0 ltac:(lia)) as (parts' & Hloop' & Hlookup).
  rewrite Hloop in Hloop'. injection Hloop' as <-.
  apply Forall_lookup_2. intros k r Hk.
  rewrite Hlookup in Hk. case_decide as Hin; [|done].
  injection Hk as <-. simpl. split; [lia|done].
Qed.

(** The closed form of the ranges: range [k] starts at [k * chunk] and is
    cut at [n]; there is a range [k] exactly when [k * chunk < n]. *)
Lemma partitions_lookup n threads parts k :
  partitions n threads = Returned parts →
  parts !! k =
    if decide (k * Nat.max 1 (n / threads) < n)
    then Some (k * Nat.max 1 (n / threads),
               Nat.min (k * Nat.max 1 (n / threads) + Nat.max 1 (n / threads)) n)
    else None.
Proof.
  intros Hparts. apply partitions_inv in Hparts as [Hthreads Hloop].
  destruct (partition_loop_lookup n (Nat.max 1 (n / threads)) ltac:(lia)
              (S n) 0 ltac:(lia)) as (parts' & Hloop' & Hlookup).
  rewrite Hloop in Hloop'. injection Hloop' as <-.
  apply Hlookup.
Qed.

Lemma partitions_length n threads parts :
  partitions n threads = Returned parts →
  n ≤ length parts * Nat.max 1 (n / threads) ∧
  (1 ≤ n → (length parts - 1) * Nat.max 1 (n / threads) < n).
Proof.
  intros Hparts.
  pose proof (λ k, partitions_lookup n threads parts k Hparts) as Hlookup.
  simpl in Hlookup. split.
  - pose proof (Hlookup (length parts)) as Hlen.
    rewrite lookup_ge_None_2 in Hlen by lia.
    case_decide; [done|lia].
  - intros Hn.
    assert (Hpos : 0 < length parts).
    { apply lookup_lt_is_Some. rewrite Hlookup.
      rewrite decide_True by lia. eauto. }
    destruct (lookup_lt_is_Some_2 parts (length parts - 1)) as [r Hr]; [lia|].
    rewrite Hlookup in Hr. case_decide; [done|discriminate].
Qed.

(** C4: for every input length [n >= 0] and every worker count
    [threads >= 1], the chunking loop of the parallel processor ends and its
    ranges are non-empty half-open ranges inside [[0, n)] that are pairwise
    disjoint and cover [[0, n)] exactly once: every index below [n] lies
    in exactly one range, no index at or above [n] lies in any, and the
    ranges laid end to end are [0, 1, ..., n - 1] with no gap and no
    repetition. *)
Theorem partition_exhaustiveness (n threads : nat) :
  1 ≤ threads →
  ∃ parts, partitions n threads = Returned parts ∧
    Forall (λ r, r.1 < r.2 ∧ r.2 ≤ n) parts ∧
    (∀ i, owners parts i = if decide (i < n) then 1 else 0) ∧
    (∀ a b ra rb, a ≠ b → parts !! a = Some ra → parts !! b = Some rb →
       ra.2 ≤ rb.1 ∨ rb.2 ≤ ra.1) ∧
    indices parts = seq 0 n.
Proof.
  intros Hthreads.
  destruct (partitions_returned n threads Hthreads) as (parts & Hparts & Hloop).
  exists parts. split; [done|].
  assert (Hchunk : 1 ≤ Nat.max 1 (n / threads)) by lia.
  repeat split.
  - eapply Forall_impl; [by eapply partition_loop_bounds|].
    intros r. simpl. lia.
  - intros i. rewrite (partition_loop_owners _ _ _ _ _ i Hchunk Hloop).
    repeat case_decide; lia.
  - intros a b ra rb Hab Ha Hb.
    rewrite (partitions_lookup _ _ _ a Hparts) in Ha.
    rewrite (partitions_lookup _ _ _ b Hparts) in Hb.
    repeat case_decide; try done.
    injection Ha as <-. injection Hb as <-. simpl.
    destruct (Nat.lt_trichotomy a b) as [Hlt|[->|Hgt]]; [left|done|right]; nia.
  - rewrite (partition_loop_indices _ _ Hchunk _ _ _ Hloop). f_equal. lia.
Qed.

Lemma partition_exhaustiveness_witness :
  ∃ parts, partitions 50 8 = Returned parts ∧
    Forall (λ r, r.1 < r.2 ∧ r.2 ≤ 50) parts ∧
    (∀ i, owners parts i = if decide (i < 50) then 1 else 0) ∧
    (∀ a b ra rb, a ≠ b → parts !! a = Some ra → parts !! b = Some rb →
       ra.2 ≤ rb.1 ∨ rb.2 ≤ ra.1) ∧
    indices parts = seq 0 50.
Proof. apply (partition_exhaustiveness 50 8). lia. Defined.

(** C3, as the specification states it, fails: for an input of length 50
    and [max_threads = 8] the pool has 8 workers and the chunk size is 6,
    but the loop makes 9 ranges, not 8: the eighth ends at 48 and a ninth,
    [(48, 50)], holds the remainder. *)
Lemma partition_count_counterexample :
  worker_count (config_with ConcurrencyPolicy.Parallel 8) 50 = 8 ∧
  chunk_size_of 50 8 = Some 6 ∧
  partitions 50 8 =
    Returned [(0, 6); (6, 12); (12, 18); (18, 24); (24, 30); (30, 36);
              (36, 42); (42, 48); (48, 50)] ∧
  ¬ (∃ parts, partitions 50 8 = Returned parts ∧ length parts = 8).
Proof.
  repeat split; try reflexivity.
  intros (parts & Hparts & Hlen). vm_compute in Hparts.
  injection Hparts as <-. discriminate.
Qed.

(** C3, amended: for every input length [n >= 1] and [max_threads >= 1],
    with [W = min(max_threads, n)] workers in the pool and chunk size
    [c = max(1, n / W) = n / W], the loop makes [ceil(n / c)] contiguous
    ranges, which is at least [W] and can exceed it: range [k] starts at
    [k * c]; every range but the last holds exactly [c] indices; the last
    one ends at [n] and holds between 1 and [c] indices. *)
Theorem partition_shape (config : ProcessConfig) (n : nat) :
  1 ≤ n → 1 ≤ max_threads config →
  let W := worker_count config n in
  let c := Nat.max 1 (n / W) in
  W = Nat.min (max_threads config) n ∧
  worker_count_of (ThreadPool_new W) = W ∧
  chunk_size_of n W = Some c ∧ c = n / W ∧
  ∃ parts, partitions n W = Returned parts ∧
    length parts = (n + c - 1) / c ∧
    W ≤ length parts ∧
    (∀ k r, parts !! k = Some r → r.1 = k * c) ∧
    (∀ k r, parts !! k = Some r → S k < length parts → r.2 = r.1 + c) ∧
    (∀ r, last parts = Some r → r.2 = n ∧ 1 ≤ r.2 - r.1 ≤ c).
Proof.
  intros Hn Hlimit W c.
  assert (HW : 1 ≤ W ≤ n) by (subst W; unfold worker_count; lia).
  assert (Hdiv : 1 ≤ n / W).
  { apply Nat.div_le_lower_bound; lia. }
  assert (Hc : c = n / W) by (subst c; lia).
  assert (HWc : W * c ≤ n).
  { rewrite Hc. apply Nat.Div0.mul_div_le. }
  split; [done|]. split; [done|].
  split; [by apply chunk_size_of_defined; lia|]. split; [done|].
  destruct (partitions_returned n W) as (parts & Hparts & _); [lia|].
  exists parts. split; [done|].
  pose proof (λ k, partitions_lookup n W parts k Hparts) as Hlookup.
  destruct (partitions_length n W parts Hparts) as [Hup Hlow].
  specialize (Hlow Hn). simpl in Hlookup.
  fold c in Hlookup, Hup, Hlow.
  assert (Hlen : 1 ≤ length parts) by (destruct parts; simpl in *; lia).
  assert (Hlast : ∀ r, last parts = Some r →
            r = ((length parts - 1) * c, Nat.min ((length parts - 1) * c + c) n)).
  { intros r Hr. rewrite last_lookup in Hr.
    replace (pred (length parts)) with (length parts - 1) in Hr by lia.
    rewrite Hlookup in Hr. case_decide; [|done]. by injection Hr as <-. }
  split; [|split; [|split; [|split]]].
  - apply (Nat.div_unique _ _ _ (n + c - 1 - c * length parts)); nia.
  - nia.
  - intros k r Hk. rewrite Hlookup in Hk.
    case_decide; [|done]. by injection Hk as <-.
  - intros k r Hk Hnext. rewrite Hlookup in Hk.
    case_decide; [|done]. injection Hk as <-. simpl. nia.
  - intros r Hr. rewrite (Hlast r Hr). simpl. nia.
Qed.

Lemma partition_shape_witness :
  worker_count (config_with ConcurrencyPolicy.Parallel 8) 50 = 8 ∧
  worker_count_of (ThreadPool_new 8) = 8 ∧
  chunk_size_of 50 8 = Some 6 ∧ 6 = 50 / 8 ∧
  ∃ parts, partitions 50 8 = Returned parts ∧
    length parts = 9 ∧
    8 ≤ length parts ∧
    (∀ k r, parts !! k = Some r → r.1 = k * 6) ∧
    (∀ k r, parts !! k = Some r → S k < length parts → r.2 = r.1 + 6) ∧
    (∀ r, last parts = Some r → r.2 = 50 ∧ 1 ≤ r.2 - r.1 ≤ 6).
Proof.
  apply (partition_shape (config_with ConcurrencyPolicy.Parallel 8) 50);
    simpl; lia.
Defined.

(** ** The parallel processor when the transformation does not throw *)

Section ParallelSuccess.
Context {InputT OutputT : Type}.
Variable value_init : OutputT.
Variable func : InputT → outcome OutputT.
Variable input : list InputT.
Variable outs : list OutputT.
Hypothesis func_ok : succeeds_on func input outs.

(** A step of a task that holds no exception and stays inside the input
    either does nothing (the task has finished) or writes the final value
    of the slot under its cursor and moves on. *)
Lemma task_step_ok t s :
  stored t = None → bound t ≤ length input →
  (finished t = true ∧ task_step func input t s = (t, s)) ∨
  (cursor t < bound t ∧ ∃ v, outs !! cursor t = Some v ∧
     task_step func input t s =
       ({| cursor := S (cursor t); bound := bound t; stored := None |},
        {| slots := <[cursor t := v]> (slots s);
           log := log s ++ [cursor t] |})).
Proof.
  intros Hstored Hbound. unfold task_step.
  destruct (finished t) eqn:Hfin; [by left|right].
  unfold finished in Hfin. rewrite Hstored in Hfin.
  apply negb_false_iff, Nat.ltb_lt in Hfin. split; [done|].
  destruct (lookup_lt_is_Some_2 input (cursor t)) as [x Hx]; [lia|].
  destruct (Forall2_lookup_l _ _ _ _ _ func_ok Hx) as (v & Hv & Hfx).
  exists v. split; [done|]. by rewrite Hx, Hfx.
Qed.

Lemma remaining_app ts ts' : remaining (ts ++ ts') = remaining ts ++ remaining ts'.
Proof. unfold remaining. by rewrite fmap_app, concat_app. Qed.

Lemma remaining_cons t ts :
  remaining (t :: ts) = seq (cursor t) (bound t - cursor t) ++ remaining ts.
Proof. reflexivity. Qed.

Lemma remaining_launch parts : remaining (launch <$> parts) = indices parts.
Proof.
  unfold remaining, indices. rewrite <- list_fmap_compose. done.
Qed.

Lemma remaining_finished ts :
  Forall (λ t, bound t ≤ cursor t) ts → remaining ts = [].
Proof.
  induction 1 as [|t ts Ht _ IH]; [done|].
  rewrite remaining_cons, IH. by replace (bound t - cursor t) with 0 by lia.
Qed.

Lemma task_step_inv pre t post s :
  parallel_inv input outs (pre ++ t :: post) s →
  parallel_inv input outs
    (pre ++ (task_step func input t s).1 :: post)
    (task_step func input t s).2.
Proof.
  intros (Hlen & Hall & Hslots & Hlog).
  assert (Ht : stored t = None ∧ bound t ≤ length input).
  { apply Forall_app in Hall as [_ Hall]. by inversion Hall. }
  destruct Ht as [Hstored Hbound].
  destruct (task_step_ok t s Hstored Hbound)
    as [[_ ->]|(Hrun & v & Hv & ->)]; [done|].
  simpl. split; [|split; [|split]].
  4: { rewrite <- Hlog, !remaining_app, !remaining_cons. simpl.
    replace (bound t - cursor t) with (S (bound t - S (cursor t))) by lia.
    simpl. rewrite <- !app_assoc. f_equiv. simpl.
    by rewrite Permutation_middle. }
  - simpl. by rewrite length_insert.
  - apply Forall_app in Hall as [Hpre Hpost]. apply Forall_app. split; [done|].
    inversion Hpost; subst. by constructor.
  - intros i Hi Hnot. simpl.
    destruct (decide (i = cursor t)) as [->|Hne].
    + rewrite list_lookup_insert_eq by lia. done.
    + rewrite list_lookup_insert_ne by done.
      apply Hslots; [done|]. intros (t0 & Hin & Hrange). apply Hnot.
      apply elem_of_app in Hin as [Hin|Hin].
      * exists t0. split; [|done]. apply elem_of_app. by left.
      * apply elem_of_cons in Hin as [->|Hin].
        -- eexists. split; [apply elem_of_app; right; left|]. simpl. lia.
        -- exists t0. split; [|done]. apply elem_of_app. right. by right.
Qed.

Lemma step_at_inv k ts s :
  parallel_inv input outs ts s →
  parallel_inv input outs
    (step_at func input k ts s).1 (step_at func input k ts s).2.
Proof.
  intros Hinv. unfold step_at.
  destruct (ts !! k) as [t|] eqn:Hk; [|done].
  pose proof (lookup_lt_Some _ _ _ Hk) as Hlt.
  rewrite <- (take_drop_middle ts k t Hk) in Hinv.
  apply task_step_inv in Hinv.
  destruct (task_step func input t s) as [t' s']. simpl in *.
  by rewrite insert_take_drop.
Qed.

Lemma interleave_inv sched ts s :
  parallel_inv input outs ts s →
  parallel_inv input outs
    (interleave func input sched ts s).1 (interleave func input sched ts s).2.
Proof.
  revert ts s. induction sched as [|k sched IH]; intros ts s Hinv; [done|].
  simpl. apply (step_at_inv k) in Hinv.
  destruct (step_at func input k ts s) as [ts' s']. by apply IH.
Qed.

(** Waiting on a future lets its task reach the end of its range. *)
Lemma run_to_completion_inv fuel pre t post s :
  parallel_inv input outs (pre ++ t :: post) s →
  bound t - cursor t ≤ fuel →
  parallel_inv input outs
    (pre ++ (run_to_completion func input fuel t s).1 :: post)
    (run_to_completion func input fuel t s).2 ∧
  bound (run_to_completion func input fuel t s).1
    ≤ cursor (run_to_completion func input fuel t s).1.
Proof.
  revert t s. induction fuel as [|fuel IH]; intros t s Hinv Hfuel.
  { simpl. split; [done|lia]. }
  simpl. pose proof (task_step_inv _ _ _ _ Hinv) as Hinv'.
  destruct Hinv as (_ & Hall & _).
  apply Forall_app in Hall as [_ Hall]. inversion Hall as [|? ? [Hs Hb] _]; subst.
  destruct (task_step_ok t s Hs Hb) as [[Hfin Hstep]|(Hrun & v & Hv & Hstep)];
    rewrite Hstep in Hinv' |- *; simpl in Hinv'.
  - apply IH; [done|].
    unfold finished in Hfin. rewrite Hs in Hfin.
    apply negb_true_iff, Nat.ltb_ge in Hfin. lia.
  - apply IH; [done|]. simpl. lia.
Qed.

Lemma wait_all_inv ts pre s :
  parallel_inv input outs (pre ++ ts) s →
  parallel_inv input outs
    (pre ++ (wait_all func input ts s).1) (wait_all func input ts s).2 ∧
  Forall (λ t, bound t ≤ cursor t) (wait_all func input ts s).1.
Proof.
  revert pre s. induction ts as [|t ts IH]; intros pre s Hinv.
  { simpl. split; [done|constructor]. }
  simpl.
  destruct (run_to_completion_inv (bound t - cursor t) pre t ts s Hinv)
    as [Hinv' Hdone]; [done|].
  destruct (run_to_completion func input (bound t - cursor t) t s) as [t' s'].
  simpl in Hinv', Hdone.
  rewrite cons_middle, app_assoc in Hinv'.
  destruct (IH _ _ Hinv') as [Hinv'' Hall].
  destruct (wait_all func input ts s') as [ts' s'']. simpl in *.
  split; [|by constructor].
  by rewrite cons_middle, app_assoc.
Qed.

(** When every task has finished, the invariant pins the output vector. *)
Lemma parallel_inv_finished ts s :
  parallel_inv input outs ts s →
  Forall (λ t, bound t ≤ cursor t) ts →
  slots s = outs.
Proof.
  intros (Hlen & _ & Hslots & _) Hdone.
  pose proof (Forall2_length _ _ _ func_ok) as Hlen'.
  apply list_eq. intros i.
  destruct (decide (i < length input)) as [Hi|Hi].
  - apply Hslots; [done|]. intros (t & Hin & Hrange).
    rewrite Forall_forall in Hdone. specialize (Hdone t Hin). lia.
  - rewrite !lookup_ge_None_2 by lia. done.
Qed.

(** And the log: every index has been invoked, each once. *)
Lemma parallel_inv_log ts s :
  parallel_inv input outs ts s →
  Forall (λ t, bound t ≤ cursor t) ts →
  log s ≡ₚ seq 0 (length input).
Proof.
  intros (_ & _ & _ & Hlog) Hdone.
  by rewrite (remaining_finished _ Hdone), app_nil_r in Hlog.
Qed.

(** The ranges of the chunking loop, launched, satisfy the invariant:
    every slot still has a task ahead of it. *)
Lemma parallel_inv_launch threads parts :
  partitions (length input) threads = Returned parts →
  parallel_inv input outs (launch <$> parts)
    {| slots := replicate (length input) value_init; log := [] |}.
Proof.
  intros Hparts. apply partitions_inv in Hparts as [Hthreads Hloop].
  assert (Hchunk : 1 ≤ Nat.max 1 (length input / threads)) by lia.
  split; [|split; [|split]].
  4: { simpl. rewrite remaining_launch.
    rewrite (partition_loop_indices _ _ Hchunk _ _ _ Hloop).
    by rewrite Nat.sub_0_r. }
  - simpl. by rewrite length_replicate.
  - apply Forall_fmap.
    eapply Forall_impl; [by eapply partition_loop_bounds|].
    intros r (_ & _ & Hr). by split.
  - intros i Hi Hnot. exfalso. apply Hnot.
    pose proof (partition_loop_owners _ _ _ _ _ i Hchunk Hloop) as Hown.
    rewrite decide_True in Hown by lia. unfold owners in Hown.
    destruct (filter _ parts) as [|r rest] eqn:Hfilter; [done|].
    assert (Hr : r ∈ filter (λ r, r.1 ≤ i < r.2) parts).
    { rewrite Hfilter. left. }
    apply list_elem_of_filter in Hr as [Hrange Hin].
    exists (launch r). split; [|done].
    apply list_elem_of_fmap. eauto.
Qed.

(** Under every schedule the tasks leave the output vector equal to the
    transformed input. *)
Lemma execute_succeeds sched threads parts :
  partitions (length input) threads = Returned parts →
  slots (execute value_init func input sched parts).2 = outs ∧
  log (execute value_init func input sched parts).2 ≡ₚ seq 0 (length input).
Proof.
  intros Hparts. unfold execute.
  pose proof (parallel_inv_launch threads parts Hparts) as Hinv.
  apply (interleave_inv sched) in Hinv.
  destruct (interleave func input sched _ _) as [ts s1]. simpl in Hinv.
  destruct (wait_all_inv ts [] s1 Hinv) as [Hinv' Hdone].
  split; [by eapply parallel_inv_finished|by eapply parallel_inv_log].
Qed.

End ParallelSuccess.

(** ** The sequential processor *)

Section Sequential.
Context {InputT OutputT : Type}.
Variable func : InputT → outcome OutputT.

(** A loop over elements the transformation returns on appends their
    values in order and ends normally. *)
Lemma sequential_loop_ok rest vs j out calls :
  succeeds_on func rest vs →
  sequential_loop func rest j out calls =
    (out ++ vs, calls ++ seq j (length rest), None).
Proof.
  intros Hok. revert j out calls.
  induction Hok as [|x v rest vs Hx _ IH]; intros j out calls; simpl.
  - by rewrite !app_nil_r.
  - rewrite Hx, IH. by rewrite <- !app_assoc.
Qed.

(** A loop whose first throwing element is [x] stops there, with the
    values of the elements before [x]. *)
Lemma sequential_loop_throws pre vs x e post j out calls :
  succeeds_on func pre vs → func x = Throws e →
  sequential_loop func (pre ++ x :: post) j out calls =
    (out ++ vs, calls ++ seq j (S (length pre)), Some e).
Proof.
  intros Hok Hx. revert j out calls.
  induction Hok as [|y v pre vs Hy _ IH]; intros j out calls; simpl.
  - by rewrite Hx, app_nil_r.
  - rewrite Hy, IH. by rewrite <- !app_assoc.
Qed.

(** The loop ends normally only after appending one value per element. *)
Lemma sequential_loop_completed rest j out calls out' calls' :
  sequential_loop func rest j out calls = (out', calls', None) →
  length out' = length out + length rest.
Proof.
  revert j out calls. induction rest as [|x rest IH]; intros j out calls; simpl.
  - intros [= <- _]. lia.
  - destruct (func x) as [v|e]; [|done].
    intros Hloop. apply IH in Hloop. rewrite length_app in Hloop.
    change (length [v]) with 1 in Hloop. lia.
Qed.

Lemma process_sequential_ok input outs config :
  succeeds_on func input outs →
  process_sequential func input config =
    (Returned {| results := outs;
                 items_processed := length input;
                 threads_used := 1;
                 memory_allocated := 0;
                 success := true;
                 error_message := ""%string |},
     seq 0 (length input)).
Proof.
  intros Hok. unfold process_sequential.
  by rewrite (sequential_loop_ok _ _ _ _ _ Hok).
Qed.

(** When the transformation first throws at index [k = length pre], the
    record holds the first [k] values and the description of the
    exception, and [items_processed] keeps its initial value 0. *)
Lemma process_sequential_throws pre vs x what post config :
  succeeds_on func pre vs → func x = Throws (StdException what) →
  process_sequential func (pre ++ x :: post) config =
    (Returned {| results := vs;
                 items_processed := 0;
                 threads_used := 1;
                 memory_allocated := 0;
                 success := false;
                 error_message := what |},
     seq 0 (S (length pre))).
Proof.
  intros Hok Hx. unfold process_sequential.
  by rewrite (sequential_loop_throws _ _ _ _ _ _ _ _ Hok Hx).
Qed.

(** An exception that is not a [std::exception] leaves the call. *)
Lemma process_sequential_foreign pre vs x post config :
  succeeds_on func pre vs → func x = Throws Foreign →
  (process_sequential func (pre ++ x :: post) config).1 = Propagated Foreign.
Proof.
  intros Hok Hx. unfold process_sequential.
  by rewrite (sequential_loop_throws _ _ _ _ _ _ _ _ Hok Hx).
Qed.

Lemma process_sequential_returned input config r :
  (process_sequential func input config).1 = Returned r →
  threads_used r = 1 ∧ memory_allocated r = 0 ∧
  (success r = true → items_processed r = length input ∧
                      length (results r) = length input).
Proof.
  unfold process_sequential.
  destruct (sequential_loop func input 0 [] [])
    as [[out calls] [[what|]|]] eqn:Hloop;
    simpl; intros Hr; try discriminate; injection Hr as <-; simpl.
  - by repeat split.
  - apply sequential_loop_completed in Hloop. simpl in Hloop.
    by repeat split.
Qed.

Lemma process_sequential_empty config :
  process_sequential func [] config =
    (Returned {| results := [];
                 items_processed := 0;
                 threads_used := 1;
                 memory_allocated := 0;
                 success := true;
                 error_message := ""%string |}, []).
Proof. reflexivity. Qed.

End Sequential.

(** A transformation that always returns succeeds on every input. *)
Lemma succeeds_on_total {InputT OutputT : Type} (g : InputT → OutputT) input :
  succeeds_on (λ x, Returns (g x)) input (g <$> input).
Proof. induction input; constructor; done. Qed.

(** [succeeds_on], index by index: [output[i] = transform(input[i])]. *)
Lemma succeeds_on_lookup {InputT OutputT : Type}
    (func : InputT → outcome OutputT) input outs i :
  succeeds_on func input outs →
  Returns <$> outs !! i = func <$> input !! i.
Proof.
  intros Hok. revert i. induction Hok as [|x v input outs Hx _ IH]; intros [|i];
    simpl; try done. by rewrite Hx.
Qed.

(** ** The parallel processor, whatever the transformation does *)

Section Parallel.
Context {InputT OutputT : Type}.
Variable value_init : OutputT.
Variable func : InputT → outcome OutputT.

Lemma task_step_length input t s :
  length (slots (task_step func input t s).2) = length (slots s).
Proof.
  unfold task_step. destruct (finished t); [done|].
  destruct (input !! cursor t) as [x|]; [|done].
  destruct (func x); simpl; [by rewrite length_insert|done].
Qed.

Lemma step_at_length input k ts s :
  length (slots (step_at func input k ts s).2) = length (slots s).
Proof.
  unfold step_at. destruct (ts !! k) as [t|]; [|done].
  pose proof (task_step_length input t s) as Hlen.
  by destruct (task_step func input t s).
Qed.

Lemma interleave_length input sched ts s :
  length (slots (interleave func input sched ts s).2) = length (slots s).
Proof.
  revert ts s. induction sched as [|k sched IH]; intros ts s; [done|].
  simpl. pose proof (step_at_length input k ts s) as Hlen.
  destruct (step_at func input k ts s) as [ts' s']. simpl in Hlen.
  by rewrite IH.
Qed.

Lemma run_to_completion_length input fuel t s :
  length (slots (run_to_completion func input fuel t s).2) = length (slots s).
Proof.
  revert t s. induction fuel as [|fuel IH]; intros t s; [done|].
  simpl. pose proof (task_step_length input t s) as Hlen.
  destruct (task_step func input t s) as [t' s']. simpl in Hlen.
  by rewrite IH.
Qed.

Lemma wait_all_length input ts s :
  length (slots (wait_all func input ts s).2) = length (slots s).
Proof.
  revert s. induction ts as [|t ts IH]; intros s; [done|].
  simpl. pose proof (run_to_completion_length input (bound t - cursor t) t s)
    as Hlen.
  destruct (run_to_completion func input _ t s) as [t' s']. simpl in Hlen.
  specialize (IH s').
  destruct (wait_all func input ts s') as [ts' s'']. simpl in *. lia.
Qed.

(** The output vector keeps the length [resize] gave it. *)
Lemma execute_length input sched parts :
  length (slots (execute value_init func input sched parts).2) = length input.
Proof.
  unfold execute.
  pose proof (interleave_length input sched (launch <$> parts)
    {| slots := replicate (length input) value_init; log := [] |}) as Hlen.
  destruct (interleave func input sched _ _) as [ts s1].
  rewrite wait_all_length. simpl in Hlen. by rewrite Hlen, length_replicate.
Qed.

(** A step never moves the end of a task's range. *)
Lemma task_step_bound input t s :
  bound (task_step func input t s).1 = bound t.
Proof.
  unfold task_step. destruct (finished t); [done|].
  destruct (input !! cursor t) as [x|]; [|done].
  by destruct (func x).
Qed.

Lemma step_at_bounds input k ts s :
  Forall (λ t, bound t ≤ length input) ts →
  Forall (λ t, bound t ≤ length input) (step_at func input k ts s).1.
Proof.
  intros Hall. unfold step_at. destruct (ts !! k) as [t|] eqn:Hk; [|done].
  pose proof (task_step_bound input t s) as Hb.
  destruct (task_step func input t s) as [t' s']. simpl in *.
  apply Forall_insert; [done|]. rewrite Hb.
  by eapply (Forall_lookup_1 _ _ _ _ Hall).
Qed.

Lemma interleave_bounds input sched ts s :
  Forall (λ t, bound t ≤ length input) ts →
  Forall (λ t, bound t ≤ length input) (interleave func input sched ts s).1.
Proof.
  revert ts s. induction sched as [|k sched IH]; intros ts s Hall; [done|].
  simpl. apply (step_at_bounds input k ts s) in Hall.
  destruct (step_at func input k ts s) as [ts' s']. by apply IH.
Qed.

(** Waiting on a future ends with its task finished: at the end of its
    range, or stopped by the exception the future now holds. *)
Lemma run_to_completion_finished input fuel t s :
  bound t ≤ length input →
  finished t = true ∨ bound t - cursor t ≤ fuel →
  finished (run_to_completion func input fuel t s).1 = true.
Proof.
  revert t s. induction fuel as [|fuel IH]; intros t s Hb Hfuel.
  { simpl. destruct Hfuel as [Hfin|Hfuel]; [done|].
    unfold finished. destruct (stored t); [done|].
    apply negb_true_iff, Nat.ltb_ge. lia. }
  simpl. unfold task_step.
  destruct (finished t) eqn:Hfin.
  { apply IH; [done|by left]. }
  unfold finished in Hfin. destruct (stored t) eqn:Hs; [done|].
  apply negb_false_iff, Nat.ltb_lt in Hfin.
  destruct (lookup_lt_is_Some_2 input (cursor t)) as [x ->]; [lia|].
  destruct (func x) as [v|e]; apply IH; simpl; try done.
  - destruct Hfuel as [Hfin'|Hfuel]; [done|right; lia].
  - by left.
Qed.

Lemma wait_all_finished input ts s :
  Forall (λ t, bound t ≤ length input) ts →
  Forall (λ t, finished t = true) (wait_all func input ts s).1.
Proof.
  revert s. induction ts as [|t ts IH]; intros s Hall; [constructor|].
  inversion Hall as [|? ? Hb Hrest]; subst. simpl.
  pose proof (run_to_completion_finished input (bound t - cursor t) t s Hb
                ltac:(by right)) as Hfin.
  destruct (run_to_completion func input _ t s) as [t' s'].
  specialize (IH s' Hrest).
  destruct (wait_all func input ts s') as [ts' s'']. by constructor.
Qed.

(** No chunk is abandoned: when the waiting loop of a parallel call ends,
    every task has finished, whatever the transformation did. *)
Lemma execute_finished input sched threads parts :
  partitions (length input) threads = Returned parts →
  Forall (λ t, finished t = true)
    (execute value_init func input sched parts).1.
Proof.
  intros Hparts. apply partitions_inv in Hparts as [Hthreads Hloop].
  unfold execute.
  assert (Hall : Forall (λ t : task, bound t ≤ length input) (launch <$> parts)).
  { apply Forall_fmap.
    eapply Forall_impl;
      [by eapply (partition_loop_bounds (length input)
                    (Nat.max 1 (length input / threads)) ltac:(lia))|].
    intros r (_ & _ & Hr). done. }
  apply (interleave_bounds input sched _
           {| slots := replicate (length input) value_init; log := [] |})
    in Hall.
  destruct (interleave func input sched _ _) as [ts s1].
  by apply wait_all_finished.
Qed.

(** Without a worker (empty input, or [max_threads = 0]) the chunk size
    divides by zero. *)
Lemma process_parallel_undefined sched input config :
  worker_count config (length input) = 0 →
  process_parallel value_init func sched input config = (Undefined, []).
Proof. intros Hw. unfold process_parallel. by rewrite Hw. Qed.

(** With a worker, the call returns a record, and every record it returns
    says [success = true], whatever happened inside the tasks. *)
Lemma process_parallel_returns sched input config :
  1 ≤ worker_count config (length input) →
  (process_parallel value_init func sched input config).1 =
    Returned {| results :=
                  slots (execute value_init func input sched
                    (default []
                       (partition_loop (S (length input)) 0 (length input)
                          (Nat.max 1 (length input
                                      / worker_count config (length input)))))).2;
                items_processed := length input;
                threads_used := worker_count config (length input);
                memory_allocated := 0;
                success := true;
                error_message := ""%string |}.
Proof.
  intros Hw. unfold process_parallel.
  destruct (partitions_returned (length input) _ Hw) as (parts & -> & ->).
  simpl. by destruct (execute _ _ _ _ _).
Qed.

Lemma process_parallel_returned sched input config r :
  (process_parallel value_init func sched input config).1 = Returned r →
  1 ≤ worker_count config (length input) ∧
  threads_used r = worker_count config (length input) ∧
  items_processed r = length input ∧
  length (results r) = length input ∧
  memory_allocated r = 0 ∧
  success r = true ∧
  error_message r = ""%string.
Proof.
  intros Hr.
  destruct (decide (worker_count config (length input) = 0)) as [Hw|Hw].
  { by rewrite process_parallel_undefined in Hr. }
  rewrite process_parallel_returns in Hr by lia.
  injection Hr as <-. simpl. rewrite execute_length. repeat split; lia.
Qed.

Lemma process_parallel_never_diverges sched input config :
  (process_parallel value_init func sched input config).1 ≠ Diverged.
Proof.
  destruct (decide (worker_count config (length input) = 0)) as [Hw|Hw].
  - by rewrite process_parallel_undefined.
  - by rewrite process_parallel_returns by lia.
Qed.

(** Index-stable placement: when the transformation returns on every
    element and the pool has a worker, the record holds the transformed
    input, slot by slot, under every schedule. *)
Lemma process_parallel_ok sched input outs config :
  1 ≤ worker_count config (length input) →
  succeeds_on func input outs →
  (process_parallel value_init func sched input config).1 =
    Returned {| results := outs;
                items_processed := length input;
                threads_used := Nat.min (max_threads config) (length input);
                memory_allocated := 0;
                success := true;
                error_message := ""%string |}.
Proof.
  intros Hw Hok. rewrite process_parallel_returns by done.
  destruct (partitions_returned (length input) _ Hw) as (parts & Hparts & ->).
  simpl. by rewrite (proj1 (execute_succeeds _ _ _ _ Hok _ _ _ Hparts)).
Qed.


End Parallel.

(** ** The adaptive processor and the dispatcher *)

Section Dispatch.
Context {InputT OutputT : Type}.
Variable value_init : OutputT.
Variable func : InputT → outcome OutputT.

Lemma process_adaptive_cases cores sched input config :
  process_adaptive value_init func cores sched input config =
    process_sequential func input config ∨
  process_adaptive value_init func cores sched input config =
    process_parallel value_init func sched input config.
Proof.
  unfold process_adaptive.
  destruct (length input <? PARALLEL_THRESHOLD); [by left|].
  destruct (_ && _); [by right|by left].
Qed.

Lemma process_cases cores sched input config :
  process value_init func cores sched input config =
    process_sequential func input config ∨
  process value_init func cores sched input config =
    process_parallel value_init func sched input config.
Proof.
  unfold process.
  destruct (concurrency config); auto using process_adaptive_cases.
Qed.

(** No call of the dispatcher runs out of fuel. *)
Lemma process_never_diverges cores sched input config :
  (process value_init func cores sched input config).1 ≠ Diverged.
Proof.
  destruct (process_cases cores sched input config) as [-> | ->].
  - unfold process_sequential.
    by destruct (sequential_loop func input 0 [] []) as [[? ?] [[?|]|]].
  - apply process_parallel_never_diverges.
Qed.


(** Under the default configuration a parallel call always has a worker:
    it is made only when [max_threads], the hardware concurrency, exceeds
    one and the input has at least 1000 elements. *)
Lemma process_default_ok cores sched input outs :
  succeeds_on func input outs →
  ∃ r, (process_default value_init func cores sched input).1 = Returned r ∧
    results r = outs ∧ items_processed r = length input ∧ success r = true.
Proof.
  intros Hok.
  change (process_default value_init func cores sched input)
    with (process_adaptive value_init func cores sched input
            (default_config cores)).
  unfold process_adaptive.
  destruct (Nat.ltb_spec (length input) PARALLEL_THRESHOLD) as [Hn|Hn].
  { rewrite (process_sequential_ok _ _ _ _ Hok). eauto. }
  destruct (Nat.leb_spec PARALLEL_THRESHOLD (length input)); [|lia].
  rewrite andb_true_l.
  destruct (Nat.ltb_spec 1 cores) as [Hcores|Hcores].
  - unfold PARALLEL_THRESHOLD in Hn.
    rewrite (process_parallel_ok _ _ sched input outs (default_config cores));
      [eauto|unfold worker_count; simpl; lia|done].
  - rewrite (process_sequential_ok _ _ _ _ Hok). eauto.
Qed.

End Dispatch.



(** ** The claims about the processors *)

Lemma example1_data_length : length example1_data = example1_size.
Proof. unfold example1_data, iota1. by rewrite length_fmap, length_seq. Qed.

Lemma example1_squares i :
  i < example1_size →
  ((λ x, x * x)%Z <$> example1_data) !! i = Some ((Z.of_nat i + 1) ^ 2)%Z.
Proof.
  intros Hi. unfold example1_data, iota1.
  rewrite !list_lookup_fmap, lookup_seq_lt by done. simpl. f_equal. lia.
Qed.

(** The squares of Example 1 fit in an [int]. *)
Lemma example1_squares_fit_int :
  Forall (λ x, 0 ≤ x * x < 2 ^ 31)%Z example1_data.
Proof.
  unfold example1_data, iota1. apply Forall_fmap, Forall_forall.
  intros i Hi. apply elem_of_seq in Hi. unfold example1_size in Hi.
  simpl. nia.
Qed.

(** C6: when the transformation returns on every element, the sequential
    processor invokes it on the elements in index order ([0, 1, ...,
    n - 1]) and returns the record with [output[i] = transform(input[i])]
    for every [i], [items_processed] the input length, [threads_used = 1]
    and [success = true].  In particular, squaring [1..10000] gives
    [items_processed = 10000], [output[i] = (i + 1)^2] and
    [success = true], under the sequential processor and under [process]
    with the default configuration, whatever the hardware concurrency and
    the schedule. *)
Theorem sequential_order_preservation :
  (∀ (InputT OutputT : Type) (func : InputT → outcome OutputT)
     (input : list InputT) (outs : list OutputT) (config : ProcessConfig),
     succeeds_on func input outs →
     process_sequential func input config =
       (Returned {| results := outs;
                    items_processed := length input;
                    threads_used := 1;
                    memory_allocated := 0;
                    success := true;
                    error_message := ""%string |},
        seq 0 (length input)) ∧
     length outs = length input ∧
     ∀ i, Returns <$> outs !! i = func <$> input !! i) ∧
  (∀ cores sched, ∃ r_seq r_def,
     (process_sequential square example1_data (default_config cores)).1
       = Returned r_seq ∧
     (process_default 0%Z square cores sched example1_data).1
       = Returned r_def ∧
     items_processed r_seq = Z.to_nat 10000 ∧ success r_seq = true ∧
     threads_used r_seq = 1 ∧
     items_processed r_def = Z.to_nat 10000 ∧ success r_def = true ∧
     results r_def = results r_seq ∧
     length (results r_seq) = Z.to_nat 10000 ∧
     ∀ i, i < Z.to_nat 10000 →
       results r_seq !! i = Some ((Z.of_nat i + 1) ^ 2)%Z).
Proof.
  split.
  - intros InputT OutputT func input outs config Hok. split; [|split].
    + by apply process_sequential_ok.
    + symmetry. by eapply Forall2_length.
    + intros i. by apply succeeds_on_lookup.
  - intros cores sched.
    pose proof (succeeds_on_total (λ x, x * x)%Z example1_data) as Hok.
    change (λ x, Returns (x * x)%Z) with square in Hok.
    pose proof example1_data_length as Hlen.
    destruct (process_default_ok 0%Z square cores sched _ _ Hok)
      as (r_def & Hdef & Hres & Hitems & Hsucc).
    eexists _, r_def.
    split; [by rewrite (process_sequential_ok _ _ _ _ Hok)|].
    split; [done|]. cbn [results items_processed success threads_used].
    rewrite Hitems, Hlen, length_fmap, Hlen.
    split; [done|]. split; [done|]. split; [done|]. split; [done|].
    split; [done|]. split; [done|]. split; [done|]. apply example1_squares.
Qed.

Lemma sequential_order_preservation_witness :
  succeeds_on square [1; 2; 3]%Z [1; 4; 9]%Z ∧
  process_sequential square [1; 2; 3]%Z (default_config 4) =
    (Returned {| results := [1; 4; 9]%Z;
                 items_processed := 3;
                 threads_used := 1;
                 memory_allocated := 0;
                 success := true;
                 error_message := ""%string |}, [0; 1; 2]).
Proof.
  assert (Hok : succeeds_on square [1; 2; 3]%Z [1; 4; 9]%Z)
    by (repeat constructor).
  split; [exact Hok|].
  exact (proj1 (proj1 sequential_order_preservation _ _ square
                  [1; 2; 3]%Z [1; 4; 9]%Z (default_config 4) Hok)).
Defined.

(** C10: for every policy, hardware concurrency, schedule, transformation
    and input, a record returned by [process] with [success = true] has
    [items_processed] equal to the input length and exactly one result per
    input element. *)
Theorem success_means_complete {InputT OutputT : Type}
    (value_init : OutputT) (func : InputT → outcome OutputT)
    (cores : nat) (sched : list nat) (input : list InputT)
    (config : ProcessConfig) (r : ProcessResult OutputT) :
  (process value_init func cores sched input config).1 = Returned r →
  success r = true →
  items_processed r = length input ∧ length (results r) = length input.
Proof.
  intros Hr Hsuccess.
  destruct (process_cases value_init func cores sched input config)
    as [Hcase|Hcase]; rewrite Hcase in Hr.
  - apply process_sequential_returned in Hr as (_ & _ & Hr). by apply Hr.
  - apply process_parallel_returned in Hr as (_ & _ & ? & ? & _). done.
Qed.

Lemma success_means_complete_witness :
  (process 0%float div100 4 [2; 0; 1] example7_data
     (config_with ConcurrencyPolicy.ThreadPool 3)).1 =
    Returned {| results := [100; 50; 100 / 3; 25; 20; 0; 100 / 7; 12.5]%float;
                items_processed := 8;
                threads_used := 3;
                memory_allocated := 0;
                success := true;
                error_message := ""%string |} ∧
  8 = length example7_data ∧
  length [100; 50; 100 / 3; 25; 20; 0; 100 / 7; 12.5]%float
    = length example7_data.
Proof.
  split; [vm_compute; reflexivity|].
  exact (success_means_complete 0%float div100 4 [2; 0; 1] example7_data
           (config_with ConcurrencyPolicy.ThreadPool 3)
           {| results := [100; 50; 100 / 3; 25; 20; 0; 100 / 7; 12.5]%float;
              items_processed := 8;
              threads_used := 3;
              memory_allocated := 0;
              success := true;
              error_message := ""%string |}
           ltac:(vm_compute; reflexivity) eq_refl).
Defined.

(** C7, as the specification states it, fails: with [max_threads = 1]
    declared, an input of 1000 elements and 4 hardware threads, the
    adaptive processor delegates to the parallel one, whose record says
    [threads_used = 1], not more than one. *)
Lemma adaptive_threads_counterexample :
  process_adaptive 0%Z square 4 [] (replicate 1000 0%Z)
      (config_with ConcurrencyPolicy.Adaptive 1) =
    process_parallel 0%Z square [] (replicate 1000 0%Z)
      (config_with ConcurrencyPolicy.Adaptive 1) ∧
  ∃ r, (process_adaptive 0%Z square 4 [] (replicate 1000 0%Z)
          (config_with ConcurrencyPolicy.Adaptive 1)).1 = Returned r ∧
    threads_used r = 1 ∧ ¬ (1 < threads_used r).
Proof.
  split; [reflexivity|].
  eexists. split; [vm_compute; reflexivity|]. simpl. split; [done|lia].
Qed.

(** C7, amended: the adaptive processor decides on the input length [N]
    and the hardware concurrency [C] alone.  For [N < 1000] it is the
    sequential processor; for [N >= 1000] and [C > 1] it is the parallel
    processor; in every other case it is the sequential processor.  Every
    record of the sequential processor has [threads_used = 1]; every
    record of the parallel processor has
    [threads_used = min(max_threads, N)], which is at least 1, never more
    than the declared maximum, and more than 1 exactly when both the
    declared maximum and [N] are; the parallel processor returns a record
    whenever that minimum is at least 1. *)
Theorem adaptive_decision {InputT OutputT : Type}
    (value_init : OutputT) (func : InputT → outcome OutputT)
    (cores : nat) (sched : list nat) (input : list InputT)
    (config : ProcessConfig) :
  (length input < 1000 →
     process_adaptive value_init func cores sched input config =
       process_sequential func input config) ∧
  (1000 ≤ length input → 1 < cores →
     process_adaptive value_init func cores sched input config =
       process_parallel value_init func sched input config) ∧
  (1000 ≤ length input → cores ≤ 1 →
     process_adaptive value_init func cores sched input config =
       process_sequential func input config) ∧
  (∀ r, (process_sequential func input config).1 = Returned r →
     threads_used r = 1) ∧
  (∀ r, (process_parallel value_init func sched input config).1 = Returned r →
     threads_used r = Nat.min (max_threads config) (length input) ∧
     1 ≤ threads_used r ≤ max_threads config ∧
     (1 < threads_used r ↔ 1 < max_threads config ∧ 1 < length input)) ∧
  (1 ≤ Nat.min (max_threads config) (length input) →
     ∃ r, (process_parallel value_init func sched input config).1 = Returned r).
Proof.
  unfold process_adaptive, PARALLEL_THRESHOLD.
  split; [|split; [|split; [|split; [|split]]]].
  - intros Hn. by destruct (Nat.ltb_spec (length input) 1000); [|lia].
  - intros Hn Hcores.
    destruct (Nat.ltb_spec (length input) 1000); [lia|].
    destruct (Nat.leb_spec 1000 (length input)); [|lia].
    by destruct (Nat.ltb_spec 1 cores); [|lia].
  - intros Hn Hcores.
    destruct (Nat.ltb_spec (length input) 1000); [lia|].
    destruct (Nat.ltb_spec 1 cores); [lia|].
    by rewrite andb_false_r.
  - intros r Hr. by apply process_sequential_returned in Hr as [? _].
  - intros r Hr.
    apply process_parallel_returned in Hr as (Hw & -> & _).
    unfold worker_count in *. lia.
  - intros Hw. eexists. by apply process_parallel_returns.
Qed.

(** C8, as the specification states it, fails: on the empty input the
    sequential processor reports [threads_used = 1], not 0, and the
    parallel processor returns no record at all (its chunk size is
    [0 / 0]). *)
Lemma empty_input_counterexample :
  (process_sequential square [] (default_config 4)).1 =
    Returned {| results := [];
                items_processed := 0;
                threads_used := 1;
                memory_allocated := 0;
                success := true;
                error_message := ""%string |} ∧
  ¬ (∃ r, (process_sequential square [] (default_config 4)).1 = Returned r ∧
          threads_used r = 0) ∧
  (process_parallel 0%Z square [] []
     (config_with ConcurrencyPolicy.Parallel 4)).1 = Undefined.
Proof.
  split; [reflexivity|]. split; [|reflexivity].
  intros (r & Hr & Hthreads). injection Hr as <-. discriminate.
Qed.

(** C8, amended: on the empty input the sequential processor, the adaptive
    processor, and [process] under the Sequential and Adaptive policies
    and under the default configuration never invoke the transformation
    and return the record with no results, [items_processed = 0],
    [threads_used = 1] and [success = true]. *)
Theorem empty_input_sequential {InputT OutputT : Type}
    (value_init : OutputT) (func : InputT → outcome OutputT)
    (cores : nat) (sched : list nat) (config : ProcessConfig) :
  let done :=
    (Returned {| results := [];
                 items_processed := 0;
                 threads_used := 1;
                 memory_allocated := 0;
                 success := true;
                 error_message := ""%string |}, @nil nat) in
  process_sequential func [] config = done ∧
  process_adaptive value_init func cores sched [] config = done ∧
  process_default value_init func cores sched [] = done ∧
  (concurrency config = ConcurrencyPolicy.Sequential ∨
   concurrency config = ConcurrencyPolicy.Adaptive →
   process value_init func cores sched [] config = done).
Proof.
  repeat split. intros [Hp|Hp]; unfold process; by rewrite Hp.
Qed.

(** ** Where the code departs from the specification *)

(** C1: the parallel processor reports a failed transformation as a
    success.  On the data of Example 7 ([100 / x] throws at [x = 0]) with 4
    workers, every schedule ends in a record with [success = true], an
    empty error description and [items_processed = 8].  Under the schedule
    that leaves everything to the waiting loop, the future of the third
    chunk holds the exception, slot 5 keeps the value [resize] gave it,
    and the record still says success: [future.wait()] does not rethrow,
    so the handler that sets [success = false] is never entered. *)
Theorem parallel_failure_reported_as_success :
  (∀ sched, ∃ r,
     (process_parallel 0%float div100 sched example7_data
        (config_with ConcurrencyPolicy.Parallel 4)).1 = Returned r ∧
     success r = true ∧ error_message r = ""%string ∧
     items_processed r = 8) ∧
  process_parallel 0%float div100 [] example7_data
      (config_with ConcurrencyPolicy.Parallel 4) =
    (Returned {| results := [100; 50; 100 / 3; 25; 20; 0; 100 / 7; 12.5]%float;
                 items_processed := 8;
                 threads_used := 4;
                 memory_allocated := 0;
                 success := true;
                 error_message := ""%string |},
     [0; 1; 2; 3; 4; 5; 6; 7]) ∧
  parallel_futures 0%float div100 [] example7_data
      (config_with ConcurrencyPolicy.Parallel 4) =
    [ {| cursor := 2; bound := 2; stored := None |};
      {| cursor := 4; bound := 4; stored := None |};
      {| cursor := 5; bound := 6;
         stored := Some (StdException "Division by zero") |};
      {| cursor := 8; bound := 8; stored := None |} ].
Proof.
  split; [|split; vm_compute; reflexivity].
  intros sched. eexists. split.
  - apply process_parallel_returns. vm_compute. lia.
  - done.
Qed.

(** C2: the sequential processor leaves [items_processed] at 0 when the
    transformation throws.  Example 7 ([1, 2, 3, 4, 5, 0, 7, 8] with
    [100 / x]), which [process] sends to the sequential processor under
    the default configuration, ends with [success = false], the
    description ["Division by zero"] and the first five results, but with
    [items_processed = 0] where the example prints it as the number of
    items processed before the error (5). *)
Theorem sequential_failure_items_processed (cores : nat) (sched : list nat) :
  process_sequential div100 example7_data (default_config cores) =
    (Returned {| results := [100; 50; 100 / 3; 25; 20]%float;
                 items_processed := 0;
                 threads_used := 1;
                 memory_allocated := 0;
                 success := false;
                 error_message := "Division by zero"%string |},
     [0; 1; 2; 3; 4; 5]) ∧
  process_default 0%float div100 cores sched example7_data =
    process_sequential div100 example7_data (default_config cores).
Proof. split; reflexivity. Qed.

(** C5: on the empty input the parallel processor has no worker
    ([min(max_threads, 0) = 0]) and computes its chunk size as [0 / 0]:
    the call has undefined behaviour instead of returning the empty
    record with [threads_used = 0].  The same happens on any input when
    [max_threads = 0]. *)
Theorem parallel_empty_input_undefined {InputT OutputT : Type}
    (value_init : OutputT) (func : InputT → outcome OutputT)
    (sched : list nat) (input : list InputT) (config : ProcessConfig) :
  process_parallel value_init func sched [] config = (Undefined, []) ∧
  process_parallel value_init func sched input
      (config_with (concurrency config) 0) = (Undefined, []).
Proof.
  split; apply process_parallel_undefined; unfold worker_count; simpl; lia.
Qed.



(** C9: on the empty input the policies do not agree: Sequential and
    Adaptive return the empty output, Parallel and ThreadPool run into the
    division by zero of C5 and return nothing. *)
Theorem strategies_on_empty_input {InputT OutputT : Type}
    (value_init : OutputT) (func : InputT → outcome OutputT)
    (cores limit : nat) (sched : list nat) :
  (∀ policy,
     policy = ConcurrencyPolicy.Sequential ∨
     policy = ConcurrencyPolicy.Adaptive →
     ∃ r, (process value_init func cores sched [] (config_with policy limit)).1
            = Returned r ∧ results r = []) ∧
  (∀ policy,
     policy = ConcurrencyPolicy.Parallel ∨
     policy = ConcurrencyPolicy.ThreadPool →
     (process value_init func cores sched [] (config_with policy limit)).1
       = Undefined).
Proof.
  split; intros policy [-> | ->]; try by eexists.
  all: change (process value_init func cores sched [] (config_with ?p limit))
         with (process_parallel value_init func sched [] (config_with p limit)).
  all: rewrite process_parallel_undefined; [done|].
  all: unfold worker_count; simpl; lia.
Qed.



(** * More properties *)

(** ** The parallel processor, chunk by chunk *)



Section Interleavings.
Context {InputT OutputT : Type}.
Variable value_init : OutputT.
Variable func : InputT → outcome OutputT.
Variable input : list InputT.





End Interleavings.

Section Chunks.
Context {InputT OutputT : Type}.
Variable value_init : OutputT.
Variable func : InputT → outcome OutputT.
Variable input : list InputT.
Variable parts : list (nat * nat).
Hypothesis parts_disjoint :
  ∀ a b ra rb, a ≠ b → parts !! a = Some ra → parts !! b = Some rb →
    ra.2 ≤ rb.1 ∨ rb.2 ≤ ra.1.
Hypothesis parts_bounds : Forall (λ r, r.1 < r.2 ∧ r.2 ≤ length input) parts.





End Chunks.

Section ParallelAnyOutcome.
Context {InputT OutputT : Type}.
Variable value_init : OutputT.
Variable func : InputT → outcome OutputT.




End ParallelAnyOutcome.




(** ** More of the sequential processor and the dispatcher *)

(** An exception the loop ends with was thrown by an element of the
    input. *)
Lemma sequential_loop_thrown {InputT OutputT : Type}
    (func : InputT → outcome OutputT) rest j out calls out' calls' e :
  sequential_loop func rest j out calls = (out', calls', Some e) →
  ∃ x, x ∈ rest ∧ func x = Throws e.
Proof.
  revert j out calls. induction rest as [|x rest IH]; intros j out calls; simpl.
  { done. }
  destruct (func x) as [v|e'] eqn:Hx.
  - intros Hloop. destruct (IH _ _ _ Hloop) as (y & Hy & Hfy).
    exists y. split; [by right|done].
  - intros [= _ _ ->]. exists x. split; [left|done].
Qed.

(** X5: when the transformation first throws a [std::exception], at index
    [k], the sequential processor stops there: it has invoked the
    transformation on indices [0..k] only and returns [success = false],
    the exception's [what()] as error description, the [k] results
    obtained so far, [threads_used = 1], and [items_processed = 0]. *)
Theorem sequential_stops_at_first_throw {InputT OutputT : Type}
    (func : InputT → outcome OutputT) (pre post : list InputT) (x : InputT)
    (vs : list OutputT) (what : string) (config : ProcessConfig) :
  succeeds_on func pre vs → func x = Throws (StdException what) →
  process_sequential func (pre ++ x :: post) config =
    (Returned {| results := vs;
                 items_processed := 0;
                 threads_used := 1;
                 memory_allocated := 0;
                 success := false;
                 error_message := what |},
     seq 0 (S (length pre))) ∧
  length vs = length pre.
Proof.
  intros Hok Hx. split; [by apply process_sequential_throws|].
  symmetry. by eapply Forall2_length.
Qed.

Lemma sequential_stops_at_first_throw_witness :
  process_sequential div100 ([1; 2; 3; 4; 5] ++ 0 :: [7; 8])%Z (default_config 4) =
    (Returned {| results := [100; 50; 100 / 3; 25; 20]%float;
                 items_processed := 0;
                 threads_used := 1;
                 memory_allocated := 0;
                 success := false;
                 error_message := "Division by zero"%string |},
     seq 0 6) ∧
  length [100; 50; 100 / 3; 25; 20]%float = length [1; 2; 3; 4; 5]%Z.
Proof.
  apply (sequential_stops_at_first_throw div100 [1; 2; 3; 4; 5]%Z [7; 8]%Z 0%Z).
  - repeat constructor.
  - reflexivity.
Defined.

(** X6: an exception that is not a [std::exception] is not caught: the
    sequential processor lets it reach the caller, after invoking the
    transformation on the elements up to the throwing one only; so does
    [process] under the Sequential policy. *)
Theorem sequential_foreign_exception_escapes {InputT OutputT : Type}
    (value_init : OutputT) (func : InputT → outcome OutputT)
    (pre post : list InputT) (x : InputT) (vs : list OutputT)
    (cores limit : nat) (sched : list nat) (config : ProcessConfig) :
  succeeds_on func pre vs → func x = Throws Foreign →
  process_sequential func (pre ++ x :: post) config =
    (Propagated Foreign, seq 0 (S (length pre))) ∧
  process value_init func cores sched (pre ++ x :: post)
    (config_with ConcurrencyPolicy.Sequential limit) =
    (Propagated Foreign, seq 0 (S (length pre))).
Proof.
  intros Hok Hx.
  assert (Hseq : ∀ cfg, process_sequential func (pre ++ x :: post) cfg =
                          (Propagated Foreign, seq 0 (S (length pre)))).
  { intros cfg. unfold process_sequential.
    by rewrite (sequential_loop_throws _ _ _ _ _ _ _ _ _ Hok Hx). }
  split; [apply Hseq|]. unfold process. simpl. apply Hseq.
Qed.

Lemma sequential_foreign_exception_escapes_witness :
  process_sequential
    (λ x : Z, if (x =? 0)%Z then Throws Foreign else Returns x)
    ([1; 2] ++ 0 :: [4])%Z (default_config 4) =
    (Propagated Foreign, seq 0 3) ∧
  process 0%Z (λ x : Z, if (x =? 0)%Z then Throws Foreign else Returns x)
    4 [] ([1; 2] ++ 0 :: [4])%Z
    (config_with ConcurrencyPolicy.Sequential 4) =
    (Propagated Foreign, seq 0 3).
Proof.
  apply (sequential_foreign_exception_escapes 0%Z _ [1; 2]%Z [4]%Z 0%Z
           [1; 2]%Z).
  - repeat constructor.
  - reflexivity.
Defined.

(** X7: with the default configuration [process] returns a record on
    every input, the empty one included, as long as the transformation
    throws nothing but [std::exception]s: the default never leads to the
    division by zero of the parallel processor. *)
Theorem default_process_returns {InputT OutputT : Type}
    (value_init : OutputT) (func : InputT → outcome OutputT)
    (cores : nat) (sched : list nat) (input : list InputT) :
  Forall (λ x, func x ≠ Throws Foreign) input →
  ∃ r, (process_default value_init func cores sched input).1 = Returned r.
Proof.
  intros Hstd.
  assert (Hseq : ∃ r, (process_sequential func input (default_config cores)).1
                        = Returned r).
  { unfold process_sequential.
    destruct (sequential_loop func input 0 [] [])
      as [[out calls] [[what|]|]] eqn:Hloop; simpl; eauto.
    apply sequential_loop_thrown in Hloop as (x & Hx & Hfx).
    rewrite Forall_forall in Hstd. by destruct (Hstd x Hx). }
  change (process_default value_init func cores sched input)
    with (process_adaptive value_init func cores sched input
            (default_config cores)).
  unfold process_adaptive.
  destruct (Nat.ltb_spec (length input) PARALLEL_THRESHOLD) as [Hn|Hn]; [done|].
  destruct (Nat.leb_spec PARALLEL_THRESHOLD (length input)); [|lia].
  rewrite andb_true_l.
  destruct (Nat.ltb_spec 1 cores) as [Hcores|Hcores]; [|done].
  unfold PARALLEL_THRESHOLD in Hn. eexists.
  apply process_parallel_returns. unfold worker_count. simpl. lia.
Qed.

Lemma default_process_returns_witness :
  ∃ r, (process_default 0%float div100 0 [] example7_data).1 = Returned r.
Proof.
  apply (default_process_returns 0%float div100 0 [] example7_data).
  repeat constructor; discriminate.
Defined.



(** X9: when the waiting loop of the parallel processor ends, no chunk is
    left half-way: every task has reached the end of its range or stopped
    at an exception its future holds, under every schedule and whatever
    the transformation does. *)
Theorem parallel_no_chunk_abandoned {InputT OutputT : Type}
    (value_init : OutputT) (func : InputT → outcome OutputT)
    (sched : list nat) (input : list InputT) (config : ProcessConfig) :
  Forall (λ t, bound t ≤ cursor t ∨ is_Some (stored t))
    (parallel_futures value_init func sched input config).
Proof.
  unfold parallel_futures.
  destruct (partitions _ _) as [parts| | |] eqn:Hparts; try constructor.
  eapply Forall_impl; [by eapply execute_finished|].
  intros t Hfin. unfold finished in Hfin.
  destruct (stored t); [right; eauto|left].
  apply negb_true_iff, Nat.ltb_ge in Hfin. lia.
Qed.

(** X10: of a configuration, the processors read the concurrency policy
    and the thread limit and nothing else: two configurations that agree
    on these give the same call, whatever their memory and safety
    policies, [chunk_size] and [enable_logging]. *)
Theorem process_reads_policy_and_limit_only {InputT OutputT : Type}
    (value_init : OutputT) (func : InputT → outcome OutputT)
    (cores : nat) (sched : list nat) (input : list InputT)
    (config config' : ProcessConfig) :
  concurrency config = concurrency config' →
  max_threads config = max_threads config' →
  process value_init func cores sched input config =
  process value_init func cores sched input config'.
Proof.
  intros Hp Hm.
  assert (Hpar : process_parallel value_init func sched input config =
                 process_parallel value_init func sched input config').
  { unfold process_parallel, worker_count. by rewrite Hm. }
  unfold process, process_adaptive. rewrite Hp, Hpar. done.
Qed.

Lemma process_reads_policy_and_limit_only_witness :
  process 0%Z square 4 [] [1; 2; 3]%Z
    {| memory := MemoryPolicy.Pooled;
       concurrency := ConcurrencyPolicy.Parallel;
       safety := SafetyPolicy.Guaranteed;
       max_threads := 2;
       chunk_size := 1;
       enable_logging := true |} =
  process 0%Z square 4 [] [1; 2; 3]%Z
    (config_with ConcurrencyPolicy.Parallel 2).
Proof.
  apply process_reads_policy_and_limit_only; reflexivity.
Defined.

(** X11: the parallel processor returns a record exactly when
    [max_threads >= 1] and the input is not empty; in every other case it
    divides by zero. *)
Theorem parallel_returns_iff_worker {InputT OutputT : Type}
    (value_init : OutputT) (func : InputT → outcome OutputT)
    (sched : list nat) (input : list InputT) (config : ProcessConfig) :
  ((∃ r, (process_parallel value_init func sched input config).1 = Returned r)
     ↔ 1 ≤ max_threads config ∧ input ≠ []) ∧
  ((process_parallel value_init func sched input config).1 = Undefined
     ↔ max_threads config = 0 ∨ input = []).
Proof.
  assert (Hw : worker_count config (length input) = 0
               ↔ max_threads config = 0 ∨ input = []).
  { unfold worker_count. destruct input; simpl.
    - split; [by right|lia].
    - split; [intros; left; lia|intros [?|?]; [lia|done]]. }
  destruct (decide (worker_count config (length input) = 0)) as [H0|H0].
  - rewrite process_parallel_undefined by done. simpl.
    split; split; try tauto.
    + by intros [r Hr].
    + intros [Hm Hi]. apply Hw in H0 as [?|?]; [lia|done].
  - rewrite process_parallel_returns by lia.
    split; split; try done.
    + intros _. split; [|intros ->; tauto].
      destruct (max_threads config); [tauto|lia].
    + eauto.
    + intros H. by apply Hw in H.
Qed.

(** X12: for an input of at most [PTRDIFF_MAX] elements, the largest a
    vector holds, no [size_t] computed by the chunking loop exceeds
    [2^64 - 1]: [i + chunk_size] never wraps, and each range ends at
    [min(i + chunk_size, n)]. *)
Theorem chunk_arithmetic_never_wraps (n threads : nat)
    (parts : list (nat * nat)) :
  (Z.of_nat n ≤ 2 ^ 63 - 1)%Z →
  partitions n threads = Returned parts →
  Forall (λ r,
    (Z.of_nat (r.1 + Nat.max 1 (n / threads)) ≤ 2 ^ 64 - 1)%Z ∧
    r.2 = Nat.min (r.1 + Nat.max 1 (n / threads)) n) parts.
Proof. apply partition_arith_fits_size_t. Qed.

Lemma chunk_arithmetic_never_wraps_witness :
  Forall (λ r,
    (Z.of_nat (r.1 + Nat.max 1 (10 / 3)) ≤ 2 ^ 64 - 1)%Z ∧
    r.2 = Nat.min (r.1 + Nat.max 1 (10 / 3)) 10)
    [(0, 3); (3, 6); (6, 9); (9, 10)].
Proof.
  apply (chunk_arithmetic_never_wraps 10 3); [lia|reflexivity].
Defined.

(** ** The memory pool *)

Lemma slots_of_S blocks size :
  MemoryPool.slots_of (S blocks) size =
    MemoryPool.slots_of blocks size ++ ((λ i, (blocks, i)) <$> seq 0 size).
Proof.
  unfold MemoryPool.slots_of.
  replace (S blocks) with (blocks + 1) by lia.
  rewrite seq_app, bind_app. simpl. by rewrite app_nil_r.
Qed.

Lemma slots_of_NoDup blocks size : NoDup (MemoryPool.slots_of blocks size).
Proof.
  induction blocks as [|blocks IH]; [constructor|].
  rewrite slots_of_S. apply NoDup_app. split; [done|]. split.
  - intros [b i] Hin Hin'.
    apply list_elem_of_fmap in Hin' as (j & [= -> ->] & _).
    unfold MemoryPool.slots_of in Hin.
    apply list_elem_of_bind in Hin as (b & Hin & Hb).
    apply list_elem_of_fmap in Hin as (j' & [= -> ->] & _).
    apply elem_of_seq in Hb. lia.
  - apply NoDup_fmap_2; [by intros ?? [=]|apply NoDup_seq].
Qed.

Lemma slots_of_length blocks size :
  length (MemoryPool.slots_of blocks size) = size * blocks.
Proof.
  induction blocks as [|blocks IH]; [simpl; lia|].
  rewrite slots_of_S, length_app, IH, length_fmap, length_seq. lia.
Qed.

Lemma slots_of_elem blocks size q :
  q ∈ MemoryPool.slots_of blocks size ↔ q.1 < blocks ∧ q.2 < size.
Proof.
  unfold MemoryPool.slots_of. rewrite list_elem_of_bind. split.
  - intros (b & Hin & Hb). apply list_elem_of_fmap in Hin as (i & -> & Hi).
    apply elem_of_seq in Hb, Hi. simpl. lia.
  - intros [Hb Hi]. exists q.1. split.
    + apply list_elem_of_fmap. exists q.2. split; [by destruct q|].
      apply elem_of_seq. lia.
    + apply elem_of_seq. lia.
Qed.

Lemma pool_inv_new size : pool_inv (MemoryPool.new size) [].
Proof.
  split; [|split]; simpl.
  - by repeat constructor.
  - lia.
  - rewrite app_nil_r. unfold MemoryPool.slots_of. simpl.
    by rewrite app_nil_r.
Qed.

Lemma pool_inv_allocate p held :
  pool_inv p held → pool_inv (MemoryPool.allocate_block p) held.
Proof.
  intros (Hblocks & Htotal & Hslots). split; [|split]; simpl.
  - apply Forall_app. split; [done|]. by repeat constructor.
  - rewrite length_app. simpl. lia.
  - rewrite length_app. simpl.
    replace (length (MemoryPool.pools_ p) + 1)
      with (S (length (MemoryPool.pools_ p))) by lia.
    rewrite slots_of_S, <- Hslots.
    rewrite <- !app_assoc. f_equiv. apply Permutation_app_comm.
Qed.

(** [acquire] in a pool whose blocks have at least one slot. *)
Lemma pool_inv_acquire p held :
  pool_inv p held → 1 ≤ MemoryPool.block_size_ p →
  ∃ q p', MemoryPool.acquire p = Returned (q, p') ∧
    pool_inv p' (q :: held) ∧
    MemoryPool.block_size_ p' = MemoryPool.block_size_ p.
Proof.
  intros Hinv Hsize. unfold MemoryPool.acquire.
  set (p1 := match MemoryPool.available_ p with
             | [] => MemoryPool.allocate_block p
             | _ => p
             end).
  assert (Hinv1 : pool_inv p1 held).
  { subst p1. destruct (MemoryPool.available_ p); [|done].
    by apply pool_inv_allocate. }
  assert (Hsize1 : MemoryPool.block_size_ p1 = MemoryPool.block_size_ p).
  { subst p1. by destruct (MemoryPool.available_ p). }
  assert (Hne : MemoryPool.available_ p1 ≠ []).
  { subst p1. destruct (MemoryPool.available_ p) eqn:Hav; [|by rewrite Hav].
    simpl. rewrite Hav. simpl.
    destruct (MemoryPool.block_size_ p); [lia|done]. }
  clearbody p1.
  destruct (exists_last Hne) as (av & q & Hav).
  rewrite Hav, last_snoc, removelast_last.
  exists q. eexists. split; [done|]. split; [|done].
  destruct Hinv1 as (Hblocks & Htotal & Hslots).
  split; [|split]; simpl; try done.
  rewrite <- Hslots, Hav, <- app_assoc. done.
Qed.

Lemma pool_inv_release p held k q :
  pool_inv p held → held !! k = Some q →
  pool_inv (MemoryPool.release q p) (delete k held).
Proof.
  intros (Hblocks & Htotal & Hslots) Hk. split; [|split]; simpl; try done.
  rewrite <- Hslots, <- app_assoc. f_equiv. simpl.
  by rewrite <- delete_Permutation.
Qed.

Lemma client_inv ops p held :
  pool_inv p held → 1 ≤ MemoryPool.block_size_ p →
  ∃ p' held', MemoryPool.client ops p held = Returned (p', held') ∧
    pool_inv p' held' ∧
    MemoryPool.block_size_ p' = MemoryPool.block_size_ p.
Proof.
  revert p held. induction ops as [|[|k] ops IH]; intros p held Hinv Hsize.
  - simpl. eauto.
  - simpl. destruct (pool_inv_acquire p held Hinv Hsize)
      as (q & p1 & -> & Hinv1 & Hsize1).
    destruct (IH p1 (q :: held) Hinv1 ltac:(lia))
      as (p' & held' & Hrun & Hinv' & Hsize').
    exists p', held'. split; [done|]. split; [done|]. congruence.
  - simpl. destruct (held !! k) as [q|] eqn:Hk; [|by apply IH].
    apply (IH (MemoryPool.release q p) (delete k held)); [|done].
    by eapply pool_inv_release.
Qed.

Lemma pool_release_acquire q p :
  MemoryPool.acquire (MemoryPool.release q p) = Returned (q, p).
Proof.
  unfold MemoryPool.acquire, MemoryPool.release.
  cbn [MemoryPool.available_].
  destruct (MemoryPool.available_ p ++ [q]) eqn:Hav.
  { by destruct (MemoryPool.available_ p). }
  cbn [MemoryPool.available_ MemoryPool.pools_ MemoryPool.block_size_
       MemoryPool.total_allocated_].
  rewrite <- Hav, last_snoc, removelast_last. by destruct p.
Qed.

(** X13: a slot given back is the next one handed out, and the pool is
    then exactly as it was before the slot was given back. *)
Theorem pool_release_then_acquire (q : MemoryPool.ptr) (p : MemoryPool.t) :
  MemoryPool.acquire (MemoryPool.release q p) = Returned (q, p) ∧
  MemoryPool.available_count (MemoryPool.release q p)
    = S (MemoryPool.available_count p) ∧
  MemoryPool.total_allocated (MemoryPool.release q p)
    = MemoryPool.total_allocated p.
Proof.
  split; [apply pool_release_acquire|]. split; [|done].
  unfold MemoryPool.available_count. simpl. rewrite length_app. simpl. lia.
Qed.

(** X14: [release] checks nothing: after a slot is given back twice, the
    next two [acquire]s both return it, so two clients hold the same
    slot. *)
Theorem pool_double_release_aliases (q : MemoryPool.ptr) (p : MemoryPool.t) :
  ∃ p1, MemoryPool.acquire (MemoryPool.release q (MemoryPool.release q p))
          = Returned (q, p1) ∧
        MemoryPool.acquire p1 = Returned (q, p).
Proof.
  exists (MemoryPool.release q p). split; apply pool_release_acquire.
Qed.

(** X15: for a pool with blocks of at least one slot, a client that gives
    back only slots it holds never runs into undefined behaviour, and at
    every point the slots it holds are pairwise distinct, none of them is
    available, each lies in an allocated block, and
    [available_count + held = total_allocated = block_size * blocks]. *)
Theorem pool_client_conservation (size : nat) (ops : list MemoryPool.op) :
  1 ≤ size →
  ∃ p held, MemoryPool.client ops (MemoryPool.new size) [] = Returned (p, held) ∧
    NoDup held ∧ NoDup (MemoryPool.available_ p) ∧
    (∀ q, q ∈ held → q ∉ MemoryPool.available_ p) ∧
    (∀ q, q ∈ held → q.1 < length (MemoryPool.pools_ p) ∧ q.2 < size) ∧
    MemoryPool.available_count p + length held = MemoryPool.total_allocated p ∧
    MemoryPool.total_allocated p = size * length (MemoryPool.pools_ p).
Proof.
  intros Hsize.
  destruct (client_inv ops (MemoryPool.new size) [] (pool_inv_new size) Hsize)
    as (p & held & Hrun & (Hblocks & Htotal & Hslots) & Hbs).
  simpl in Hbs. rewrite Hbs in *.
  exists p, held. split; [done|].
  pose proof (slots_of_NoDup (length (MemoryPool.pools_ p)) size) as Hnd.
  rewrite <- Hslots in Hnd. apply NoDup_app in Hnd as (Hav & Hdisj & Hheld).
  split; [done|]. split; [done|]. split; [|split; [|split; [|done]]].
  - intros q Hq Hq'. by apply (Hdisj q).
  - intros q Hq. apply slots_of_elem. rewrite <- Hslots.
    apply elem_of_app. by right.
  - unfold MemoryPool.available_count, MemoryPool.total_allocated.
    rewrite Htotal, <- slots_of_length, <- Hslots, length_app. done.
Qed.

Lemma pool_client_conservation_witness :
  ∃ p held,
    MemoryPool.client
      [MemoryPool.Acquire; MemoryPool.Acquire; MemoryPool.Acquire;
       MemoryPool.Release 1; MemoryPool.Acquire]
      (MemoryPool.new 2) [] = Returned (p, held) ∧
    NoDup held ∧ NoDup (MemoryPool.available_ p) ∧
    (∀ q, q ∈ held → q ∉ MemoryPool.available_ p) ∧
    (∀ q, q ∈ held → q.1 < length (MemoryPool.pools_ p) ∧ q.2 < 2) ∧
    MemoryPool.available_count p + length held = MemoryPool.total_allocated p ∧
    MemoryPool.total_allocated p = 2 * length (MemoryPool.pools_ p).
Proof. apply (pool_client_conservation 2). lia. Defined.

(** X16: [acquire] on a pool with no slot available allocates one more
    block and hands out its last slot: [total_allocated] grows by
    [block_size], and [block_size - 1] slots are available afterwards. *)
Theorem pool_grows_when_exhausted (p : MemoryPool.t) :
  MemoryPool.available_ p = [] → 1 ≤ MemoryPool.block_size_ p →
  ∃ p', MemoryPool.acquire p
          = Returned ((length (MemoryPool.pools_ p),
                       MemoryPool.block_size_ p - 1), p') ∧
    MemoryPool.total_allocated p'
      = MemoryPool.total_allocated p + MemoryPool.block_size_ p ∧
    MemoryPool.available_count p' = MemoryPool.block_size_ p - 1 ∧
    length (MemoryPool.pools_ p') = S (length (MemoryPool.pools_ p)).
Proof.
  intros Hav Hsize. unfold MemoryPool.acquire. rewrite Hav.
  unfold MemoryPool.allocate_block.
  cbn [MemoryPool.available_ MemoryPool.pools_ MemoryPool.block_size_
       MemoryPool.total_allocated_].
  rewrite Hav, app_nil_l.
  destruct (MemoryPool.block_size_ p) as [|n]; [lia|].
  rewrite seq_S, fmap_app. cbn [fmap list_fmap]. rewrite Nat.add_0_l.
  rewrite last_snoc, removelast_last.
  replace (S n - 1) with n by lia.
  eexists. split; [done|].
  unfold MemoryPool.total_allocated, MemoryPool.available_count.
  cbn [MemoryPool.available_ MemoryPool.pools_ MemoryPool.block_size_
       MemoryPool.total_allocated_].
  rewrite length_fmap, length_seq, length_app. simpl. repeat split; lia.
Qed.

Lemma pool_grows_when_exhausted_witness :
  ∃ p', MemoryPool.acquire
          {| MemoryPool.pools_ := [3]; MemoryPool.available_ := [];
             MemoryPool.block_size_ := 3; MemoryPool.total_allocated_ := 3 |}
          = Returned ((1, 2), p') ∧
    MemoryPool.total_allocated p' = 3 + 3 ∧
    MemoryPool.available_count p' = 2 ∧
    length (MemoryPool.pools_ p') = 2.
Proof.
  apply (pool_grows_when_exhausted
           {| MemoryPool.pools_ := [3]; MemoryPool.available_ := [];
              MemoryPool.block_size_ := 3; MemoryPool.total_allocated_ := 3 |});
    [reflexivity|simpl; lia].
Defined.

(** X17: a pool whose blocks have no slot ([block_size = 0]) cannot
    serve: [acquire] allocates an empty block and then reads the back of
    an empty vector, which is undefined; so the first [acquire] on
    [MemoryPool(0)] is undefined. *)
Theorem pool_zero_block_size_undefined (p : MemoryPool.t) :
  MemoryPool.available_ p = [] → MemoryPool.block_size_ p = 0 →
  MemoryPool.acquire p = Undefined.
Proof.
  intros Hav Hsize. unfold MemoryPool.acquire. rewrite Hav. simpl.
  by rewrite Hav, Hsize.
Qed.

Lemma pool_zero_block_size_undefined_witness :
  MemoryPool.acquire (MemoryPool.new 0) = Undefined.
Proof.
  apply (pool_zero_block_size_undefined (MemoryPool.new 0)); reflexivity.
Defined.

(** ** The benchmark helper *)

(** A loop whose runs all return ends, with [threads_used] of its last
    run. *)
Lemma timed_loop_returns {T : Type} (run_at : nat → call (ProcessResult T))
    (P : nat → Prop) time_at count i total threads :
  (∀ k, ∃ r, run_at k = Returned r ∧ P (threads_used r)) →
  ∃ total' threads',
    timed_loop run_at time_at i count total threads =
      Returned (total', threads') ∧
    if count is O then total' = total ∧ threads' = threads else P threads'.
Proof.
  intros Hrun. revert i total threads.
  induction count as [|count IH]; intros i total threads; simpl; [eauto|].
  destruct (Hrun i) as (r & -> & Hw).
  destruct (IH (S i) (total + time_at i)%float (threads_used r))
    as (t & th & Ht & Hth).
  rewrite Ht. exists t, th. split; [done|].
  destruct count; [by destruct Hth as [_ ->]|done].
Qed.

(** The sequential processor returns a record unless the transformation
    throws something that is not a [std::exception]. *)
Lemma process_sequential_std_returns {InputT OutputT : Type}
    (func : InputT → outcome OutputT) input config :
  Forall (λ x, func x ≠ Throws Foreign) input →
  ∃ r, (process_sequential func input config).1 = Returned r ∧
    threads_used r = 1.
Proof.
  intros Hstd. unfold process_sequential.
  destruct (sequential_loop func input 0 [] [])
    as [[out calls] [[what|]|]] eqn:Hloop; simpl; eauto.
  apply sequential_loop_thrown in Hloop as (x & Hx & Hfx).
  rewrite Forall_forall in Hstd. by destruct (Hstd x Hx).
Qed.

(** Under the default configuration the adaptive processor makes a
    parallel call only with at least two workers. *)
Lemma process_adaptive_default_returns {InputT OutputT : Type}
    (value_init : OutputT) (func : InputT → outcome OutputT)
    cores sched input :
  Forall (λ x, func x ≠ Throws Foreign) input →
  ∃ r, (process_adaptive value_init func cores sched input
          (default_config cores)).1 = Returned r.
Proof.
  intros Hstd.
  destruct (process_sequential_std_returns func input (default_config cores)
              Hstd) as (r & Hr & _).
  unfold process_adaptive.
  destruct (Nat.ltb_spec (length input) PARALLEL_THRESHOLD) as [Hn|Hn]; [eauto|].
  destruct (Nat.leb_spec PARALLEL_THRESHOLD (length input)); [|lia].
  rewrite andb_true_l.
  destruct (Nat.ltb_spec 1 cores) as [Hcores|Hcores]; [|eauto].
  unfold PARALLEL_THRESHOLD in Hn. eexists.
  apply process_parallel_returns. unfold worker_count. simpl. lia.
Qed.

(** X18: on a non-empty input, with at least one hardware thread and one
    iteration, [benchmark] returns, and its [optimal_threads] is
    [min(hardware concurrency, input length)], the worker count of the
    parallel runs; it does so whether or not the transformation throws
    [std::exception]s, which it never looks for. *)
Theorem benchmark_optimal_threads {InputT OutputT : Type}
    (value_init : OutputT) (func : InputT → outcome OutputT) (cores : nat)
    (scheds : phase → nat → list nat) (elapsed : phase → nat → float)
    (input : list InputT) (iterations : nat) :
  1 ≤ iterations → 1 ≤ cores → input ≠ [] →
  Forall (λ x, func x ≠ Throws Foreign) input →
  ∃ b, benchmark value_init func cores scheds elapsed input iterations
         = Returned b ∧
    optimal_threads b = Nat.min cores (length input).
Proof.
  intros Hit Hcores Hne Hstd. unfold benchmark.
  destruct (timed_loop_returns
              (λ i, (process_sequential func input (default_config cores)).1)
              (λ _, True) (elapsed SequentialRuns) iterations 0 0%float 0)
    as (t1 & th1 & -> & _).
  { intros _. destruct (process_sequential_std_returns func input
                          (default_config cores) Hstd) as (r & Hr & _).
    eauto. }
  destruct (timed_loop_returns
              (λ i, (process_parallel value_init func (scheds ParallelRuns i)
                       input (config_with ConcurrencyPolicy.Parallel cores)).1)
              (λ w, w = Nat.min cores (length input))
              (elapsed ParallelRuns) iterations 0 0%float 0)
    as (t2 & th2 & -> & Hth2).
  { intros k. eexists. split.
    - apply process_parallel_returns. unfold worker_count. simpl.
      destruct input; [done|simpl; lia].
    - done. }
  destruct (timed_loop_returns
              (λ i, (process_adaptive value_init func cores
                       (scheds AdaptiveRuns i) input (default_config cores)).1)
              (λ _, True) (elapsed AdaptiveRuns) iterations 0 0%float 0)
    as (t3 & th3 & -> & _).
  { intros k. destruct (process_adaptive_default_returns value_init func cores
                          (scheds AdaptiveRuns k) input Hstd) as [r Hr].
    eauto. }
  eexists. split; [done|]. simpl. destruct iterations; [lia|done].
Qed.

Lemma benchmark_optimal_threads_witness :
  ∃ b, benchmark 0%float div100 4 (λ _ _, []) (λ _ _, 1%float)
         example7_data 3 = Returned b ∧
    optimal_threads b = Nat.min 4 (length example7_data).
Proof.
  apply benchmark_optimal_threads; try (simpl; lia); try done.
  repeat constructor; discriminate.
Defined.



(** X20: with [iterations = 0] no processor is called, so [benchmark]
    returns on every input; its three averages are [0.0 / 0], not a
    number, and so are both speedups, and [optimal_threads] is 0. *)
Theorem benchmark_zero_iterations {InputT OutputT : Type}
    (value_init : OutputT) (func : InputT → outcome OutputT) (cores : nat)
    (scheds : phase → nat → list nat) (elapsed : phase → nat → float)
    (input : list InputT) :
  benchmark value_init func cores scheds elapsed input 0 =
    Returned {| sequential_ms := nan;
                parallel_ms := nan;
                adaptive_ms := nan;
                speedup_parallel := nan;
                speedup_adaptive := nan;
                optimal_threads := 0 |}.
Proof. reflexivity. Qed.

(** ** The thread pool *)

Section WorkerPoolProofs.
Import WorkerPool.
Variable throws : nat → bool.

Lemma workers_split (ws : list worker) w s s' :
  ws !! w = Some s →
  ws = take w ws ++ s :: drop (S w) ws ∧
  <[w := s']> ws = take w ws ++ s' :: drop (S w) ws.
Proof.
  intros Hw. split; [by rewrite take_drop_middle|].
  apply insert_take_drop. by eapply lookup_lt_Some.
Qed.

Lemma running_split pre s post :
  omap (λ s, match s with Running task => Some task | _ => None end)
    (pre ++ s :: post)
  = omap (λ s, match s with Running task => Some task | _ => None end) pre
    ++ match s with Running task => [task] | _ => [] end
    ++ omap (λ s, match s with Running task => Some task | _ => None end) post.
Proof. rewrite omap_app. f_equal. by destruct s. Qed.

Lemma busy_split pre s post :
  length (filter (λ s, busy s = true) (pre ++ s :: post))
  = length (filter (λ s, busy s = true) pre)
    + (if busy s then 1 else 0)
    + length (filter (λ s, busy s = true) post).
Proof.
  rewrite filter_app, filter_cons, length_app.
  case_decide as Hb; [rewrite Hb|destruct (busy s); [done|]]; simpl; lia.
Qed.

Lemma worker_pool_inv_new n : worker_pool_inv [] (new n).
Proof.
  split; [|split]; simpl.
  - unfold running. simpl. induction n; simpl; done.
  - induction n; simpl; [done|]. by rewrite filter_cons, decide_False.
  - intros _. apply Forall_replicate. done.
Qed.

Lemma worker_pool_inv_enqueue enq task p :
  worker_pool_inv enq p → worker_pool_inv (enq ++ [task]) (enqueue task p).
Proof.
  intros (Hc & Ha & Hk). split; [|split]; simpl; try done.
  unfold running in *. simpl. rewrite <- Hc. solve_Permutation.
Qed.

Lemma worker_pool_inv_step enq w p :
  worker_pool_inv enq p → worker_pool_inv enq (worker_step throws w p).
Proof.
  intros (Hc & Ha & Hk). unfold worker_step.
  destruct (terminated p); [done|].
  destruct (workers_ p !! w) as [s|] eqn:Hw; [|done].
  unfold worker_pool_inv, running in *.
  destruct s as [|task| |].
  - destruct (last (tasks_ p)) as [task|] eqn:Hlast.
    + destruct (workers_split _ w Waiting (Running task) Hw) as [Hws ->].
      rewrite Hws in Hc, Ha, Hk. simpl.
      rewrite running_split in Hc |- *. rewrite busy_split in Ha |- *.
      simpl in *. split; [|split].
      * rewrite <- Hc. apply last_Some in Hlast as [ts ->].
        rewrite removelast_last. solve_Permutation.
      * lia.
      * intros Hs. specialize (Hk Hs).
        apply Forall_app in Hk as [Hpre Hpost]. apply Forall_app.
        split; [done|]. inversion Hpost; subst. by constructor.
    + destruct (stop_ p) eqn:Hstop; [|by rewrite Hstop].
      destruct (workers_split _ w Waiting Exited Hw) as [Hws ->].
      rewrite Hws in Hc, Ha. simpl.
      rewrite running_split in Hc |- *. rewrite busy_split in Ha |- *.
      simpl in *. split; [done|]. split; [lia|done].
  - destruct (throws task); [done|].
    destruct (workers_split _ w (Running task) Ran Hw) as [Hws ->].
    rewrite Hws in Hc, Ha, Hk. simpl.
    rewrite running_split in Hc |- *. rewrite busy_split in Ha |- *.
    simpl in *. split; [|split; [done|]].
    + rewrite <- Hc. solve_Permutation.
    + intros Hs. specialize (Hk Hs).
      apply Forall_app in Hk as [Hpre Hpost]. apply Forall_app.
      split; [done|]. inversion Hpost; subst. by constructor.
  - destruct (workers_split _ w Ran Waiting Hw) as [Hws ->].
    rewrite Hws in Hc, Ha, Hk. simpl.
    rewrite running_split in Hc |- *. rewrite busy_split in Ha |- *.
    simpl in *. split; [done|]. split; [lia|].
    intros Hs. specialize (Hk Hs).
    apply Forall_app in Hk as [Hpre Hpost]. apply Forall_app.
    split; [done|]. inversion Hpost; subst. by constructor.
  - done.
Qed.

Lemma worker_pool_inv_run events enq p :
  worker_pool_inv enq p →
  worker_pool_inv (enq ++ enqueued events) (run throws events p).
Proof.
  revert enq p. induction events as [|[task|w] events IH]; intros enq p Hinv.
  - simpl. by rewrite app_nil_r.
  - simpl. change (task :: enqueued events) with ([task] ++ enqueued events).
    rewrite app_assoc. apply IH. by apply worker_pool_inv_enqueue.
  - simpl. apply IH. by apply worker_pool_inv_step.
Qed.

Lemma worker_count_step w p :
  length (workers_ (worker_step throws w p)) = length (workers_ p).
Proof.
  unfold worker_step. destruct (terminated p); [done|].
  destruct (workers_ p !! w) as [[|task| |]|]; try done; simpl.
  - destruct (last (tasks_ p)); simpl; [by rewrite length_insert|].
    destruct (stop_ p); simpl; [by rewrite length_insert|done].
  - destruct (throws task); simpl; [done|by rewrite length_insert].
  - by rewrite length_insert.
Qed.

Lemma worker_count_run events p :
  length (workers_ (run throws events p)) = length (workers_ p).
Proof.
  revert p. induction events as [|[task|w] events IH]; intros p; simpl;
    [done|by rewrite IH|by rewrite IH, worker_count_step].
Qed.

(** A caller of [wait_all] that got through saw an idle pool, reached by
    moves of the workers only. *)
Lemma wait_all_returned sched p p' :
  wait_all throws sched p = Some p' →
  idle p' = true ∧ ∃ sched', p' = run throws (Step <$> sched') p.
Proof.
  revert p. induction sched as [|w sched IH]; intros p; simpl.
  - destruct (idle p) eqn:Hidle; [|done]. intros [= <-].
    split; [done|]. by exists [].
  - destruct (idle p) eqn:Hidle.
    + intros [= <-]. split; [done|]. by exists [].
    + intros Hwait. destruct (IH _ Hwait) as (Hidle' & sched' & ->).
      split; [done|]. by exists (w :: sched').
Qed.

Lemma enqueued_steps sched : enqueued (Step <$> sched) = [].
Proof. induction sched; done. Qed.

Lemma enqueued_app events events' :
  enqueued (events ++ events') = enqueued events ++ enqueued events'.
Proof. apply omap_app. Qed.

Lemma run_app events events' p :
  run throws (events ++ events') p = run throws events' (run throws events p).
Proof. apply foldl_app. Qed.


Lemma calm_inv_new n : calm_inv throws (new n).
Proof.
  split; [done|]. split; [|done]. simpl. unfold running. simpl.
  induction n; simpl; [constructor|done].
Qed.

Lemma calm_inv_enqueue enq task p :
  worker_pool_inv enq p → stop_ p = false → throws task = false →
  calm_inv throws p → calm_inv throws (enqueue task p).
Proof.
  intros (_ & _ & Hk) Hstop Htask (Hterm & Hall & Hexit).
  split; [done|]. split; simpl.
  - rewrite <- app_assoc. apply Forall_app in Hall as [Hq Hr].
    apply Forall_app. split; [done|]. apply Forall_app. split; [|done].
    by repeat constructor.
  - intros Hin. specialize (Hk Hstop). rewrite Forall_forall in Hk.
    by destruct (Hk _ Hin).
Qed.

Lemma calm_inv_step w p :
  calm_inv throws p → calm_inv throws (worker_step throws w p).
Proof.
  intros (Hterm & Hall & Hexit). unfold worker_step. rewrite Hterm.
  destruct (workers_ p !! w) as [s|] eqn:Hw; [|done].
  unfold calm_inv, running in *.
  destruct s as [|task| |].
  - destruct (last (tasks_ p)) as [task|] eqn:Hlast.
    + destruct (workers_split _ w Waiting (Running task) Hw) as [Hws ->].
      rewrite Hws in Hall, Hexit. simpl.
      rewrite running_split in Hall |- *. simpl in *.
      apply last_Some in Hlast as [ts Hts]. rewrite Hts in *.
      rewrite removelast_last. split; [done|]. split.
      * match goal with
        | |- Forall _ ?l =>
            match type of Hall with
            | Forall _ ?l' => assert (Hperm : l ≡ₚ l') by solve_Permutation
            end
        end.
        by rewrite Hperm.
      * intros Hin. exfalso.
        assert (ts ++ [task] = []); [|by destruct ts].
        apply Hexit. rewrite elem_of_app in Hin |- *.
        destruct Hin as [?|Hin]; [by left|right].
        apply elem_of_cons in Hin as [?|?]; [done|by right].
    + destruct (stop_ p); [|done]. simpl.
      apply last_None in Hlast. split; [done|]. split; [|done].
      destruct (workers_split _ w Waiting Exited Hw) as [Hws ->].
      rewrite Hws in Hall. by rewrite running_split in Hall |- *.
  - assert (Htask : throws task = false).
    { rewrite Forall_forall in Hall. apply Hall.
      apply elem_of_app. right. apply list_elem_of_omap.
      exists (Running task). split; [|done]. by eapply list_elem_of_lookup_2. }
    rewrite Htask.
    destruct (workers_split _ w (Running task) Ran Hw) as [Hws ->].
    rewrite Hws in Hall, Hexit. simpl.
    rewrite running_split in Hall |- *. simpl in *.
    split; [done|]. split.
    + match goal with
      | |- Forall _ ?l =>
          match type of Hall with
          | Forall _ ?l' =>
              assert (Hperm : l' ≡ₚ task :: l) by solve_Permutation
          end
      end.
      rewrite Hperm in Hall. by inversion Hall.
    + intros Hin. apply Hexit. rewrite elem_of_app in Hin |- *.
      destruct Hin as [?|Hin]; [by left|right].
      apply elem_of_cons in Hin as [?|?]; [done|by right].
  - destruct (workers_split _ w Ran Waiting Hw) as [Hws ->].
    rewrite Hws in Hall, Hexit. simpl.
    rewrite running_split in Hall |- *. simpl in *.
    split; [done|]. split; [done|].
    intros Hin. apply Hexit. rewrite elem_of_app in Hin |- *.
    destruct Hin as [?|Hin]; [by left|right].
    apply elem_of_cons in Hin as [?|?]; [done|by right].
  - done.
Qed.

Lemma stop_step w p : stop_ (worker_step throws w p) = stop_ p.
Proof.
  unfold worker_step. destruct (terminated p); [done|].
  destruct (workers_ p !! w) as [[|task| |]|]; try done; simpl.
  - destruct (last (tasks_ p)); [done|]. by destruct (stop_ p) eqn:Hs.
  - by destruct (throws task).
Qed.

Lemma stop_run events p : stop_ (run throws events p) = stop_ p.
Proof.
  revert p. induction events as [|[task|w] events IH]; intros p; simpl;
    [done|by rewrite IH|by rewrite IH, stop_step].
Qed.

Lemma calm_inv_run events enq p :
  worker_pool_inv enq p → stop_ p = false →
  Forall (λ task, throws task = false) (enqueued events) →
  calm_inv throws p → calm_inv throws (run throws events p).
Proof.
  revert enq p. induction events as [|[task|w] events IH];
    intros enq p Hinv Hstop Hall Hcalm; simpl; [done|..].
  - simpl in Hall. inversion Hall; subst.
    apply (IH (enq ++ [task])); try done.
    + by apply worker_pool_inv_enqueue.
    + by eapply calm_inv_enqueue.
  - apply (IH enq); try done.
    + by apply worker_pool_inv_step.
    + by rewrite stop_step.
    + by apply calm_inv_step.
Qed.

(** Once [stop_] is raised every move of a worker brings it one move
    closer to its exit. *)
Lemma moves_left_step w p :
  calm_inv throws p → stop_ p = true →
  moves_left (worker_step throws w p) w = pred (moves_left p w).
Proof.
  intros (Hterm & Hall & Hexit) Hstop. unfold worker_step, moves_left.
  rewrite Hterm. destruct (workers_ p !! w) as [s|] eqn:Hw; [|by rewrite Hw].
  pose proof (lookup_lt_Some _ _ _ Hw) as Hlt.
  destruct s as [|task| |].
  - destruct (last (tasks_ p)) as [task|] eqn:Hlast.
    + simpl. rewrite list_lookup_insert_eq by done.
      apply last_Some in Hlast as [ts ->].
      rewrite removelast_last, length_app. simpl. lia.
    + rewrite Hstop. simpl. rewrite list_lookup_insert_eq by done.
      apply last_None in Hlast. rewrite Hlast. done.
  - assert (Htask : throws task = false).
    { rewrite Forall_forall in Hall. apply Hall.
      apply elem_of_app. right. apply list_elem_of_omap.
      exists (Running task). split; [|done]. by eapply list_elem_of_lookup_2. }
    rewrite Htask. simpl. rewrite list_lookup_insert_eq by done. lia.
  - simpl. rewrite list_lookup_insert_eq by done. lia.
  - by rewrite Hw.
Qed.

Lemma iter_invariants enq fuel w p :
  worker_pool_inv enq p → calm_inv throws p → stop_ p = true →
  worker_pool_inv enq (Nat.iter fuel (worker_step throws w) p) ∧
  calm_inv throws (Nat.iter fuel (worker_step throws w) p) ∧
  stop_ (Nat.iter fuel (worker_step throws w) p) = true ∧
  length (workers_ (Nat.iter fuel (worker_step throws w) p))
    = length (workers_ p) ∧
  moves_left (Nat.iter fuel (worker_step throws w) p) w
    = moves_left p w - fuel.
Proof.
  intros Hinv Hcalm Hstop. induction fuel as [|fuel IH]; simpl.
  { split; [done|]. split; [done|]. split; [done|]. split; [done|]. lia. }
  destruct IH as (Hinv' & Hcalm' & Hstop' & Hlen' & Hmoves').
  split; [by apply worker_pool_inv_step|].
  split; [by apply calm_inv_step|].
  split; [by rewrite stop_step|].
  split; [by rewrite worker_count_step|].
  rewrite moves_left_step by done. lia.
Qed.

(** [join] returns with its worker at the end of its thread function. *)
Lemma join_exits enq w p :
  worker_pool_inv enq p → calm_inv throws p → stop_ p = true →
  w < length (workers_ p) →
  workers_ (join throws w p) !! w = Some Exited.
Proof.
  intros Hinv Hcalm Hstop Hw. unfold join.
  destruct (iter_invariants enq (3 * length (tasks_ p) + 3) w p Hinv Hcalm Hstop)
    as (_ & _ & _ & Hlen & Hmoves).
  assert (Hzero : moves_left p w - (3 * length (tasks_ p) + 3) = 0).
  { unfold moves_left. destruct (workers_ p !! w) as [[| | |]|]; lia. }
  rewrite Hzero in Hmoves. unfold moves_left in Hmoves.
  destruct (lookup_lt_is_Some_2 _ w ltac:(rewrite Hlen; exact Hw)) as [s Hs].
  rewrite Hs in Hmoves |- *. destruct s; try lia. done.
Qed.

(** A worker that has exited stays so, whoever moves. *)
Lemma exited_step w w' p :
  workers_ p !! w' = Some Exited →
  workers_ (worker_step throws w p) !! w' = Some Exited.
Proof.
  intros Hw'. unfold worker_step. destruct (terminated p); [done|].
  destruct (decide (w = w')) as [->|Hne]; [by rewrite Hw'|].
  destruct (workers_ p !! w) as [[|task| |]|]; try done; simpl.
  - destruct (last (tasks_ p)); simpl; [by rewrite list_lookup_insert_ne|].
    destruct (stop_ p); simpl; [by rewrite list_lookup_insert_ne|done].
  - destruct (throws task); simpl; [done|by rewrite list_lookup_insert_ne].
  - by rewrite list_lookup_insert_ne.
Qed.

Lemma exited_iter fuel w w' p :
  workers_ p !! w' = Some Exited →
  workers_ (Nat.iter fuel (worker_step throws w) p) !! w' = Some Exited.
Proof. intros Hw'. induction fuel; simpl; [done|by apply exited_step]. Qed.

(** Joining the workers [first, first + 1, ...] leaves all of them, and
    those that had exited before, at their exit. *)
Lemma join_all enq count first p :
  worker_pool_inv enq p → calm_inv throws p → stop_ p = true →
  first + count ≤ length (workers_ p) →
  (∀ w, w < first → workers_ p !! w = Some Exited) →
  let q := foldl (λ q w, join throws w q) p (seq first count) in
  worker_pool_inv enq q ∧ calm_inv throws q ∧
  length (workers_ q) = length (workers_ p) ∧
  ∀ w, w < first + count → workers_ q !! w = Some Exited.
Proof.
  revert first p. induction count as [|count IH];
    intros first p Hinv Hcalm Hstop Hlen Hdone; simpl.
  { split; [done|]. split; [done|]. split; [done|].
    intros w Hw. apply Hdone. lia. }
  destruct (iter_invariants enq (3 * length (tasks_ p) + 3) first p
              Hinv Hcalm Hstop) as (Hinv' & Hcalm' & Hstop' & Hlen' & _).
  fold (join throws first p) in *.
  destruct (IH (S first) (join throws first p)) as (Hi & Hc & Hl & Hall);
    try done.
  - rewrite Hlen'. lia.
  - intros w Hw. destruct (decide (w = first)) as [->|Hne].
    + eapply join_exits; try done. lia.
    + apply exited_iter. apply Hdone. lia.
  - split; [done|]. split; [done|]. split; [congruence|].
    intros w Hw. apply Hall. lia.
Qed.

Lemma no_busy_no_running (ws : list worker) :
  length (filter (λ s, busy s = true) ws) = 0 →
  omap (λ s, match s with Running task => Some task | _ => None end) ws = [].
Proof.
  induction ws as [|s ws IH]; [done|].
  rewrite filter_cons. destruct s; simpl; try done.
Qed.

Lemma no_workers_step w p : workers_ p = [] → worker_step throws w p = p.
Proof.
  intros Hws. unfold worker_step. rewrite Hws.
  by destruct (terminated p).
Qed.

End WorkerPoolProofs.

(** X21: in a pool of [n] workers, whatever the owner enqueues and however
    the workers are scheduled, no task is lost or run twice: the tasks
    queued, being run and completed are, together, exactly the tasks
    enqueued so far; [active_tasks_] is the number of workers holding a
    task; and the pool keeps its [n] workers. *)
Theorem pool_tasks_conserved (throws : nat → bool) (n : nat)
    (events : list WorkerPool.event) :
  let p := WorkerPool.run throws events (WorkerPool.new n) in
  WorkerPool.tasks_ p ++ WorkerPool.running p ++ WorkerPool.completed p
    ≡ₚ WorkerPool.enqueued events ∧
  WorkerPool.active_tasks_ p
    = length (filter (λ s, WorkerPool.busy s = true) (WorkerPool.workers_ p)) ∧
  WorkerPool.worker_count p = n.
Proof.
  intros p.
  destruct (worker_pool_inv_run throws events [] (WorkerPool.new n)
              (worker_pool_inv_new n)) as (Hc & Ha & _).
  split; [done|]. split; [done|].
  unfold WorkerPool.worker_count, p. rewrite worker_count_run. simpl.
  by rewrite length_replicate.
Qed.

(** X22: when [wait_all] returns, every task enqueued before the call has
    completed, exactly once, and none is queued or being run. *)
Theorem pool_wait_all_means_done (throws : nat → bool) (n : nat)
    (events : list WorkerPool.event) (sched : list nat) (p' : WorkerPool.t) :
  WorkerPool.wait_all throws sched
    (WorkerPool.run throws events (WorkerPool.new n)) = Some p' →
  WorkerPool.completed p' ≡ₚ WorkerPool.enqueued events ∧
  WorkerPool.tasks_ p' = [] ∧ WorkerPool.running p' = [].
Proof.
  intros Hwait.
  apply wait_all_returned in Hwait as (Hidle & sched' & ->).
  rewrite <- run_app in *.
  destruct (worker_pool_inv_run throws (events ++ (WorkerPool.Step <$> sched'))
              [] (WorkerPool.new n) (worker_pool_inv_new n)) as (Hc & Ha & _).
  rewrite enqueued_app, enqueued_steps, app_nil_r in Hc. simpl in Hc.
  unfold WorkerPool.idle in Hidle.
  destruct (WorkerPool.tasks_ _) eqn:Htasks; [|done].
  apply Nat.eqb_eq in Hidle. rewrite Hidle in Ha.
  symmetry in Ha. apply no_busy_no_running in Ha.
  unfold WorkerPool.running in *. rewrite Ha in Hc |- *. done.
Qed.

Lemma pool_wait_all_means_done_witness :
  ∃ p', WorkerPool.wait_all (λ _, false) [0; 1; 1; 0; 0; 1; 1; 1]
          (WorkerPool.run (λ _, false)
             [WorkerPool.Enqueue 7; WorkerPool.Step 1; WorkerPool.Enqueue 8;
              WorkerPool.Enqueue 9]
             (WorkerPool.new 2)) = Some p' ∧
    WorkerPool.completed p' ≡ₚ [7; 8; 9] ∧
    WorkerPool.tasks_ p' = [] ∧ WorkerPool.running p' = [].
Proof.
  eexists. split; [vm_compute; reflexivity|].
  apply (pool_wait_all_means_done (λ _, false) 2
           [WorkerPool.Enqueue 7; WorkerPool.Step 1; WorkerPool.Enqueue 8;
            WorkerPool.Enqueue 9]
           [0; 1; 1; 0; 0; 1; 1; 1]).
  vm_compute. reflexivity.
Defined.

(** X23: the destructor drains the pool: with at least one worker and no
    throwing task, when [~ThreadPool()] returns every worker has left its
    thread function, the queue is empty, [active_tasks_] is 0, and every
    task ever enqueued has completed exactly once, those still queued
    when the destructor began included. *)
Theorem pool_destructor_drains (throws : nat → bool) (n : nat)
    (events : list WorkerPool.event) (sched : list nat) :
  1 ≤ n →
  Forall (λ task, throws task = false) (WorkerPool.enqueued events) →
  let p := WorkerPool.destroy throws sched
             (WorkerPool.run throws events (WorkerPool.new n)) in
  WorkerPool.workers_ p = replicate n WorkerPool.Exited ∧
  WorkerPool.tasks_ p = [] ∧
  WorkerPool.active_tasks_ p = 0 ∧
  WorkerPool.completed p ≡ₚ WorkerPool.enqueued events ∧
  WorkerPool.terminated p = false.
Proof.
  intros Hn Hthrows p. subst p. unfold WorkerPool.destroy.
  set (q := WorkerPool.run throws events (WorkerPool.new n)) in *.
  pose proof (worker_pool_inv_run throws events [] (WorkerPool.new n)
                (worker_pool_inv_new n)) as Hinv.
  pose proof (calm_inv_run throws events [] (WorkerPool.new n)
                (worker_pool_inv_new n) eq_refl Hthrows (calm_inv_new throws n))
    as Hcalm.
  pose proof (stop_run throws events (WorkerPool.new n)) as Hstop.
  pose proof (worker_count_run throws events (WorkerPool.new n)) as Hlen.
  fold q in Hinv, Hcalm, Hstop, Hlen. simpl in Hinv, Hstop, Hlen.
  rewrite length_replicate in Hlen. rewrite Hlen.
  set (stopped := {| WorkerPool.workers_ := WorkerPool.workers_ q;
                     WorkerPool.tasks_ := WorkerPool.tasks_ q;
                     WorkerPool.stop_ := true;
                     WorkerPool.active_tasks_ := WorkerPool.active_tasks_ q;
                     WorkerPool.completed := WorkerPool.completed q;
                     WorkerPool.terminated := WorkerPool.terminated q |}).
  assert (Hinv0 : worker_pool_inv (WorkerPool.enqueued events) stopped).
  { destruct Hinv as (Hc & Ha & Hk). by split. }
  assert (Hcalm0 : calm_inv throws stopped).
  { destruct Hcalm as (Ht & Hall & Hexit). by split. }
  pose proof (worker_pool_inv_run throws (WorkerPool.Step <$> sched) _ _ Hinv0)
    as Hinv1.
  rewrite enqueued_steps, app_nil_r in Hinv1.
  assert (Hcalm1 : calm_inv throws
            (WorkerPool.run throws (WorkerPool.Step <$> sched) stopped)).
  { clear -Hcalm0. revert Hcalm0. generalize stopped.
    induction sched as [|w sched' IH]; intros s Hs; [done|].
    simpl. apply IH. by apply calm_inv_step. }
  pose proof (stop_run throws (WorkerPool.Step <$> sched) stopped) as Hstop1.
  pose proof (worker_count_run throws (WorkerPool.Step <$> sched) stopped)
    as Hlen1.
  simpl in Hstop1, Hlen1.
  destruct (join_all throws (WorkerPool.enqueued events) n 0 _
              Hinv1 Hcalm1 Hstop1 ltac:(rewrite Hlen1, Hlen; lia)
              ltac:(intros; lia))
    as (Hinv2 & Hcalm2 & Hlen2 & Hall).
  simpl in Hall.
  set (p := foldl (λ q w, WorkerPool.join throws w q)
              (WorkerPool.run throws (WorkerPool.Step <$> sched) stopped)
              (seq 0 n)) in *.
  assert (Hws : WorkerPool.workers_ p = replicate n WorkerPool.Exited).
  { apply list_eq. intros w. destruct (decide (w < n)) as [Hw|Hw].
    - rewrite Hall by lia. by rewrite lookup_replicate_2.
    - rewrite !lookup_ge_None_2; [done|rewrite length_replicate; lia|].
      rewrite Hlen2, Hlen1, Hlen. lia. }
  destruct Hinv2 as (Hc & Ha & _). destruct Hcalm2 as (Hterm & _ & Hexit).
  assert (Htasks : WorkerPool.tasks_ p = []).
  { apply Hexit. rewrite Hws. destruct n; [lia|]. left. }
  assert (Hbusy : length (filter (λ s, WorkerPool.busy s = true)
                            (WorkerPool.workers_ p)) = 0).
  { rewrite Hws. clear. induction n; [done|]. simpl.
    by rewrite filter_cons, decide_False. }
  split; [done|]. split; [done|]. split; [lia|]. split; [|done].
  unfold WorkerPool.running in Hc.
  rewrite (no_busy_no_running _ Hbusy), Htasks in Hc. done.
Qed.

Lemma pool_destructor_drains_witness :
  let p := WorkerPool.destroy (λ _, false) [1; 0]
             (WorkerPool.run (λ _, false)
                [WorkerPool.Enqueue 7; WorkerPool.Enqueue 8; WorkerPool.Step 0;
                 WorkerPool.Enqueue 9]
                (WorkerPool.new 2)) in
  WorkerPool.workers_ p = replicate 2 WorkerPool.Exited ∧
  WorkerPool.tasks_ p = [] ∧
  WorkerPool.active_tasks_ p = 0 ∧
  WorkerPool.completed p ≡ₚ [7; 8; 9] ∧
  WorkerPool.terminated p = false.
Proof.
  apply (pool_destructor_drains (λ _, false) 2
           [WorkerPool.Enqueue 7; WorkerPool.Enqueue 8; WorkerPool.Step 0;
            WorkerPool.Enqueue 9] [1; 0]).
  - lia.
  - repeat constructor.
Defined.

(** X24: a pool created with no worker never runs anything: the tasks
    enqueued stay in the queue, in order; [wait_all] does not return once
    a task has been enqueued; and the destructor returns with the tasks
    still queued and not run. *)
Theorem pool_without_workers (throws : nat → bool)
    (events : list WorkerPool.event) (sched : list nat) :
  let p := WorkerPool.run throws events (WorkerPool.new 0) in
  WorkerPool.tasks_ p = WorkerPool.enqueued events ∧
  WorkerPool.completed p = [] ∧
  (WorkerPool.enqueued events ≠ [] →
   WorkerPool.wait_all throws sched p = None) ∧
  WorkerPool.tasks_ (WorkerPool.destroy throws sched p)
    = WorkerPool.enqueued events ∧
  WorkerPool.completed (WorkerPool.destroy throws sched p) = [].
Proof.
  assert (Hrun : ∀ evs q, WorkerPool.workers_ q = [] →
            WorkerPool.run throws evs q =
              {| WorkerPool.workers_ := [];
                 WorkerPool.tasks_ :=
                   WorkerPool.tasks_ q ++ WorkerPool.enqueued evs;
                 WorkerPool.stop_ := WorkerPool.stop_ q;
                 WorkerPool.active_tasks_ := WorkerPool.active_tasks_ q;
                 WorkerPool.completed := WorkerPool.completed q;
                 WorkerPool.terminated := WorkerPool.terminated q |}).
  { induction evs as [|[task|w] evs IH]; intros q Hq; simpl.
    - rewrite app_nil_r. destruct q. simpl in *. by subst.
    - rewrite IH by done. simpl. by rewrite <- app_assoc.
    - rewrite (no_workers_step throws w q Hq). by apply IH. }
  intros p. unfold p. rewrite (Hrun events (WorkerPool.new 0) eq_refl). simpl.
  split; [done|]. split; [done|]. split; [|split].
  - intros Hne. clear p. induction sched as [|w sched IH]; simpl.
    + unfold WorkerPool.idle. simpl.
      by destruct (WorkerPool.enqueued events).
    + unfold WorkerPool.idle at 1. simpl.
      destruct (WorkerPool.enqueued events) eqn:He; [done|].
      rewrite no_workers_step by done. by rewrite <- He in *.
  - unfold WorkerPool.destroy. simpl. rewrite Hrun by done. simpl.
    by rewrite enqueued_steps, app_nil_r.
  - unfold WorkerPool.destroy. simpl. by rewrite Hrun.
Qed.

(** X25: the queue is a stack: a waiting worker takes the task enqueued
    last, whatever was queued before, and leaves the rest of the queue as
    it was. *)
Theorem pool_takes_latest_task (throws : nat → bool) (w : nat)
    (p : WorkerPool.t) (tasks : list nat) (task : nat) :
  WorkerPool.terminated p = false →
  WorkerPool.workers_ p !! w = Some WorkerPool.Waiting →
  let q := WorkerPool.worker_step throws w
             (foldl (λ q t, WorkerPool.enqueue t q) p (tasks ++ [task])) in
  WorkerPool.workers_ q !! w = Some (WorkerPool.Running task) ∧
  WorkerPool.tasks_ q = WorkerPool.tasks_ p ++ tasks ∧
  WorkerPool.active_tasks_ q = S (WorkerPool.active_tasks_ p).
Proof.
  intros Hterm Hw.
  assert (Henq : ∀ ts q,
            foldl (λ q t, WorkerPool.enqueue t q) q ts =
              {| WorkerPool.workers_ := WorkerPool.workers_ q;
                 WorkerPool.tasks_ := WorkerPool.tasks_ q ++ ts;
                 WorkerPool.stop_ := WorkerPool.stop_ q;
                 WorkerPool.active_tasks_ := WorkerPool.active_tasks_ q;
                 WorkerPool.completed := WorkerPool.completed q;
                 WorkerPool.terminated := WorkerPool.terminated q |}).
  { induction ts as [|t ts IH]; intros q; simpl.
    - rewrite app_nil_r. by destruct q.
    - rewrite IH. simpl. by rewrite <- app_assoc. }
  rewrite Henq. unfold WorkerPool.worker_step. simpl.
  rewrite Hterm, Hw, app_assoc, last_snoc, removelast_last. simpl.
  split; [|done]. apply list_lookup_insert_eq. by eapply lookup_lt_Some.
Qed.

Lemma pool_takes_latest_task_witness :
  let q := WorkerPool.worker_step (λ _, false) 0
             (foldl (λ q t, WorkerPool.enqueue t q) (WorkerPool.new 1)
                ([7; 8] ++ [9])) in
  WorkerPool.workers_ q !! 0 = Some (WorkerPool.Running 9) ∧
  WorkerPool.tasks_ q = WorkerPool.tasks_ (WorkerPool.new 1) ++ [7; 8] ∧
  WorkerPool.active_tasks_ q = S (WorkerPool.active_tasks_ (WorkerPool.new 1)).
Proof.
  apply (pool_takes_latest_task (λ _, false) 0 (WorkerPool.new 1) [7; 8] 9);
    reflexivity.
Defined.
